(** * Monch: a parser-combinator library (index.ts) and its JSON example
      grammar (deno_test.ts), embedded as Rocq functions.

    Conventions of the embedding.
    - A JavaScript [number] used as a string index is a [Z]; a JavaScript
      string is a Rocq [string].
    - A parse function either returns a [ParseResult] or does not return at
      all (the [while (true)] loops of [manySep0] and [take0] have no bound).
      A parser is therefore a function into [option (ParseResult _ _)], where
      [None] stands for "did not return".  The loop combinators take the
      number [fuel] of iterations they may run before giving up with [None];
      every combinator hands a [None] of a sub-parser on.
    - The three outcomes of the source are [Success] (kind 'success'),
      [Error] (kind 'error') and [Undefined] (the JavaScript [undefined]). *)

From Stdlib Require Import String Ascii List ZArith Lia Bool.
Import ListNotations.

Open Scope string_scope.
Open Scope Z_scope.

Module Monch.

(** ** Data model *)

Record ParseInput : Type := mkInput {
  code : string;
  index : Z
}.

Record ParseSource : Type := mkSource {
  src_code : string;
  start : Z;
  end_ : Z
}.

Inductive ParseResult (P E : Type) : Type :=
| Success (input : ParseInput) (src : ParseSource) (parsed : P)
| Error (input : ParseInput) (err : E)
| Undefined.

Arguments Success {P E} input src parsed.
Arguments Error {P E} input err.
Arguments Undefined {P E}.

Definition Parser (P E : Type) : Type := ParseInput -> option (ParseResult P E).

(** Values of a type that has JavaScript's [undefined] among them
    (the [TParsed | undefined] of [optional], the [undefined] of [nothing]). *)
Class HasUndefined (V : Type) : Type := js_undefined : V.

#[export] Instance option_HasUndefined (A : Type) : HasUndefined (option A) := None.
#[export] Instance unit_HasUndefined : HasUndefined unit := tt.

(** [src: { code: input.code, start: input.index, end: nextInput.index }] *)
Definition span (input nextInput : ParseInput) : ParseSource :=
  {| src_code := code input; start := index input; end_ := index nextInput |}.

(** ** String primitives of JavaScript used by the library *)

Definition str_length (s : string) : Z := Z.of_nat (String.length s).

Fixpoint drop (n : nat) (s : string) : string :=
  match n, s with
  | O, _ => s
  | S _, EmptyString => EmptyString
  | S n', String _ s' => drop n' s'
  end.

(** [s.substring(i)]: an index below 0 counts as 0, one beyond the length as
    the length. *)
Definition js_substring (s : string) (i : Z) : string := drop (Z.to_nat i) s.

(** [s.startsWith(str)] *)
Definition startsWith (s str : string) : bool := String.prefix str s.

(** [s[i]] for an index inside the string, as a one-character string. *)
Definition js_char_at (s : string) (i : Z) : string :=
  String.substring (Z.to_nat i) 1 s.

Fixpoint existsb_string (f : ascii -> bool) (s : string) : bool :=
  match s with
  | EmptyString => false
  | String ch s' => f ch || existsb_string f s'
  end.

(** ** Constructors of inputs and primitive parsers *)

Definition input (code : string) : ParseInput := {| code := code; index := 0 |}.

Definition nothing {V E : Type} `{HasUndefined V} : Parser V E := fun input =>
  Some (Success input (span input input) js_undefined).

Definition exact {E : Type} (str : string) : Parser string E := fun input =>
  if startsWith (js_substring (code input) (index input)) str then
    let end' := index input + str_length str in
    Some (Success {| code := code input; index := end' |}
                  {| src_code := code input; start := index input; end_ := end' |}
                  str)
  else
    Some Undefined.

Definition filter {P E : Type} (parser : Parser P E) (pred : P -> bool) : Parser P E :=
  fun input =>
    match parser input with
    | None => None
    | Some res =>
        match res with
        | Success _ _ parsed => if negb (pred parsed) then Some Undefined else Some res
        | _ => Some res
        end
    end.

Definition map {P M E : Type} (parser : Parser P E) (fn : P -> ParseSource -> M)
  : Parser M E :=
  fun input =>
    match parser input with
    | None => None
    | Some (Success input' src parsed) => Some (Success input' src (fn parsed src))
    | Some (Error input' err) => Some (Error input' err)
    | Some Undefined => Some Undefined
    end.

Definition required {P E : Type} (parser : Parser P E) (error : ParseInput -> E)
  : Parser P E :=
  fun input =>
    match parser input with
    | None => None
    | Some Undefined => Some (Error input (error input))
    | Some res => Some res
    end.

(** ** Characters *)

Definition char {E : Type} : Parser string E := fun input =>
  if (0 <=? index input) && (index input <? str_length (code input)) then
    Some (Success {| code := code input; index := index input + 1 |}
                  {| src_code := code input; start := index input;
                     end_ := index input + 1 |}
                  (js_char_at (code input) (index input)))
  else
    Some Undefined.

(** The character classes of the three regular expressions, on code units
    below 256: [\s] is tab, line feed, vertical tab, form feed, carriage
    return, space and the no-break space. *)
Definition whitespaceRegex (ch : ascii) : bool :=
  let n := nat_of_ascii ch in
  ((9 <=? n) && (n <=? 13) || (n =? 32) || (n =? 160))%nat.

Definition numericRegex (ch : ascii) : bool :=
  let n := nat_of_ascii ch in ((48 <=? n) && (n <=? 57))%nat.

Definition alphaRegex (ch : ascii) : bool :=
  let n := nat_of_ascii ch in
  ((65 <=? n) && (n <=? 90) || (97 <=? n) && (n <=? 122))%nat.

(** [ch.match(regex) != null]: some character of [ch] is in the class. *)
Definition js_match (regex : ascii -> bool) (ch : string) : bool :=
  existsb_string regex ch.

Definition whitespaceChar {E : Type} : Parser string E :=
  filter char (js_match whitespaceRegex).

Definition numericChar {E : Type} : Parser string E :=
  filter char (js_match numericRegex).

Definition alphaChar {E : Type} : Parser string E :=
  filter char (js_match alphaRegex).

(** ** Combinators *)

Definition optional {V E : Type} `{HasUndefined V} (parser : Parser V E) : Parser V E :=
  fun input =>
    match parser input with
    | None => None
    | Some Undefined => nothing input
    | Some res => Some res
    end.

(** The [for] loop of [oneOf] over the remaining possibilities; falling off
    the end of the function returns [undefined]. *)
Fixpoint oneOf {P E : Type} (possibilities : list (Parser P E)) : Parser P E :=
  fun input =>
    match possibilities with
    | [] => Some Undefined
    | possibility :: rest =>
        match possibility input with
        | None => None
        | Some Undefined => oneOf rest input
        | Some res => Some res
        end
    end.

(** The [for] loop of [tuple], with the two variables [nextInput] and [items]
    it updates. *)
Fixpoint tuple_loop {P E : Type} (pieces : list (Parser P E))
    (input nextInput : ParseInput) (items : list P) : option (ParseResult (list P) E) :=
  match pieces with
  | [] => Some (Success nextInput (span input nextInput) items)
  | piece :: rest =>
      match piece nextInput with
      | None => None
      | Some (Success input' _ parsed) => tuple_loop rest input input' (items ++ [parsed])
      | Some (Error input' err) => Some (Error input' err)
      | Some Undefined => Some Undefined
      end
  end.

Definition tuple {P E : Type} (pieces : list (Parser P E)) : Parser (list P) E :=
  fun input => tuple_loop pieces input input [].

(** The [while (true)] loop of [manySep0]; [fuel] bounds the iterations. *)
Fixpoint manySep0_loop {P Q E : Type} (fuel : nat) (item : Parser P E)
    (sep : option (Parser Q E)) (input nextInput : ParseInput) (items : list P)
    : option (ParseResult (list P) E) :=
  match fuel with
  | O => None
  | S fuel' =>
      let parse_item := fun nextInput : ParseInput =>
        match item nextInput with
        | None => None
        | Some Undefined => Some (Success nextInput (span input nextInput) items)
        | Some (Error input' err) => Some (Error input' err)
        | Some (Success input' _ parsed) =>
            manySep0_loop fuel' item sep input input' (items ++ [parsed])
        end in
      match (if (0 <? List.length items)%nat then sep else None) with
      | Some sep' =>
          match sep' nextInput with
          | None => None
          | Some Undefined => Some (Success nextInput (span input nextInput) items)
          | Some (Error input' err) => Some (Error input' err)
          | Some (Success input' _ _) => parse_item input'
          end
      | None => parse_item nextInput
      end
  end.

Definition manySep0 {P Q E : Type} (fuel : nat) (item : Parser P E)
    (sep : option (Parser Q E)) : Parser (list P) E :=
  fun input => manySep0_loop fuel item sep input input [].

Definition manySep1 {P Q E : Type} (fuel : nat) (item : Parser P E)
    (sep : option (Parser Q E)) : Parser (list P) E :=
  filter (manySep0 fuel item sep) (fun parsed => (0 <? List.length parsed)%nat).

Definition many0 {P E : Type} (fuel : nat) (item : Parser P E) : Parser (list P) E :=
  manySep0 fuel item (@None (Parser unit E)).

Definition many1 {P E : Type} (fuel : nat) (item : Parser P E) : Parser (list P) E :=
  manySep1 fuel item (@None (Parser unit E)).

(** The [while (true)] loop of [take0]; [fuel] bounds the iterations. *)
Fixpoint take0_loop {E : Type} (fuel : nat) (charParser : Parser string E)
    (input nextInput : ParseInput) (res : string) : option (ParseResult string E) :=
  match fuel with
  | O => None
  | S fuel' =>
      match charParser nextInput with
      | None => None
      | Some Undefined => Some (Success nextInput (span input nextInput) res)
      | Some (Error input' err) => Some (Error input' err)
      | Some (Success input' _ parsed) =>
          take0_loop fuel' charParser input input' (res ++ parsed)
      end
  end.

Definition take0 {E : Type} (fuel : nat) (charParser : Parser string E)
  : Parser string E :=
  fun input => take0_loop fuel charParser input input "".

Definition take1 {E : Type} (fuel : nat) (chParser : Parser string E)
  : Parser string E :=
  filter (take0 fuel chParser) (fun s => (0 <? String.length s)%nat).

Definition whitespace {V E : Type} `{HasUndefined V} (fuel : nat) : Parser V E :=
  map (take0 fuel whitespaceChar) (fun _ _ => js_undefined).

(** ** Precedence levels *)

(** [levels.indexOf(x)]: the position of the first element that is [x], or
    -1.  JavaScript compares the elements with [===], which on function values
    is their identity; that comparison is the parameter [same]. *)
Fixpoint indexOf {A : Type} (same : A -> A -> bool) (levels : list A) (x : A) : Z :=
  match levels with
  | [] => -1
  | y :: rest =>
      if same y x then 0
      else let i := indexOf same rest x in if i <? 0 then -1 else i + 1
  end.

(** [levels.slice(i)]: a negative [i] counts from the end. *)
Definition slice {A : Type} (levels : list A) (i : Z) : list A :=
  if i <? 0 then skipn (Z.to_nat (Z.of_nat (List.length levels) + i)) levels
  else skipn (Z.to_nat i) levels.

Definition precedence {P E : Type} (same : Parser P E -> Parser P E -> bool)
    (levels : list (Parser P E)) (startingFrom : option (Parser P E)) : Parser P E :=
  match startingFrom with
  | None => oneOf levels
  | Some level => oneOf (slice levels (indexOf same levels level + 1))
  end.

End Monch.

(** * The JSON grammar of deno_test.ts *)

Module JsonTest.
Import Monch.

Section Grammar.

(** JavaScript's numbers and the conversion [Number(...)] of a decimal text
    to one are parameters of the grammar. *)
Context {number_t : Type} (Number : string -> number_t).

(** The values the grammar produces.  TypeScript types the pieces of a
    [tuple] one by one; here the pieces of a tuple of mixed types all produce
    a [Json], a JavaScript array being [JArray]. *)
#[local] Unset Elimination Schemes.
Inductive Json : Type :=
| JUndefined
| JNull
| JBool (b : bool)
| JNumber (n : number_t)
| JString (s : string)
| JArray (elements : list Json)
| JObject (entries : list (string * Json)).
#[local] Set Elimination Schemes.

#[export] Instance Json_HasUndefined : HasUndefined Json := JUndefined.

(** A parser of strings, and one of arrays, seen as a parser of values: the
    outcome, the cursor and the span are those of [p]. *)
Definition str (p : Parser string string) : Parser Json string :=
  map p (fun s _ => JString s).

Definition arr (p : Parser (list Json) string) : Parser Json string :=
  map p (fun elements _ => JArray elements).

(** [items[i]] of array destructuring: [undefined] beyond the length. *)
Definition elem (v : Json) (i : nat) : Json :=
  match v with
  | JArray elements => nth i elements JUndefined
  | _ => JUndefined
  end.

(** The string held by a value that the source's types make a string. *)
Definition as_string (v : Json) : string :=
  match v with
  | JString s => s
  | _ => ""
  end.

(** The double quote character, as a string. *)
Definition dquote : string := String "034"%char EmptyString.

(** The number a text of decimal digits denotes, after the digits [acc]. *)
Fixpoint digits_value (s : string) (acc : N) : option N :=
  match s with
  | EmptyString => Some acc
  | String a s' =>
      let n := nat_of_ascii a in
      if ((48 <=? n) && (n <=? 57))%nat
      then digits_value s' (10 * acc + N.of_nat (n - 48))%N
      else None
  end.

(** The array index a property key is, if it is one: the decimal text,
    without a leading zero, of an integer from 0 to 2^32 - 2. *)
Definition array_index (k : string) : option N :=
  match k with
  | EmptyString => None
  | String a rest =>
      if (a =? "0")%char && negb (rest =? "")%string then None
      else
        match digits_value k 0%N with
        | Some n => if (n <? 4294967295)%N then Some n else None
        | None => None
        end
  end.

(** [obj[k] = v], on the properties of an object in the order JavaScript
    lists them: the array indices in ascending order, then the other keys in
    the order they were first set.  A key already present keeps its place. *)
Fixpoint set_prop (k : string) (v : Json) (obj : list (string * Json))
  : list (string * Json) :=
  match obj with
  | [] => [(k, v)]
  | (k', v') :: obj' =>
      if (k =? k')%string then (k, v) :: obj'
      else
        match array_index k, array_index k' with
        | Some n, Some n' =>
            if (n <? n')%N then (k, v) :: (k', v') :: obj'
            else (k', v') :: set_prop k v obj'
        | Some _, None => (k, v) :: (k', v') :: obj'
        | None, _ => (k', v') :: set_prop k v obj'
        end
  end.

Definition Object_fromEntries (entries : Json) : Json :=
  match entries with
  | JArray es =>
      JObject (fold_left (fun obj e => set_prop (as_string (elem e 0)) (elem e 1) obj)
                         es [])
  | _ => JObject []
  end.

Definition nil_ : Parser Json string :=
  map (exact "null") (fun _ _ => JNull).

Definition boolean : Parser Json string :=
  map (oneOf [exact "true"; exact "false"]) (fun s _ => JBool (s =? "true")%string).

Definition number (fuel : nat) : Parser Json string :=
  map
    (tuple [
       str (take1 fuel numericChar);
       optional
         (arr (tuple [
            str (exact ".");
            str (required (take1 fuel numericChar)
                   (fun _ => "Expected numbers after decimal point"))
          ]))
     ])
    (fun items _ =>
       let front := nth 0 items JUndefined in
       let back := nth 1 items JUndefined in
       let numberString :=
         match back with
         | JUndefined | JNull => as_string front
         | _ => as_string front ++ "." ++ as_string (elem back 1)
         end in
       JNumber (Number numberString)).

Definition string_ (fuel : nat) : Parser Json string :=
  map
    (tuple [
       exact dquote;
       take0 fuel (filter char (fun ch => negb (ch =? dquote)%string));
       required (exact dquote) (fun _ => "Expected closing quote '" ++ dquote ++ "'")
     ])
    (fun items _ => JString (nth 1 items "")).

Definition commaWithWhitespace (fuel : nat) : Parser (list Json) string :=
  tuple [
    whitespace fuel;
    str (exact ",");
    whitespace fuel
  ].

(** [array], [object] and [jsonValue] refer to each other in the source; the
    first two are given here as functions of the parser [jsonValue]. *)
Definition array_of (fuel : nat) (jsonValue : Parser Json string) : Parser Json string :=
  fun input =>
    map
      (tuple [
         str (exact "[");
         whitespace fuel;
         arr (manySep0 fuel jsonValue (Some (commaWithWhitespace fuel)));
         whitespace fuel;
         str (required (exact "]") (fun _ => "Expected closing bracket ']'"))
       ])
      (fun items _ => nth 2 items JUndefined)
      input.

Definition object_of (fuel : nat) (jsonValue : Parser Json string) : Parser Json string :=
  fun input =>
    map
      (tuple [
         str (exact "{");
         whitespace fuel;
         arr (manySep0 fuel
                (map
                   (tuple [
                      string_ fuel;
                      whitespace fuel;
                      str (required (exact ":") (fun _ => "Expected ':' after object key"));
                      whitespace fuel;
                      required jsonValue (fun _ => "Expected value after ':'")
                    ])
                   (fun items _ =>
                      JArray [nth 0 items JUndefined; nth 4 items JUndefined]))
                (Some (commaWithWhitespace fuel)));
         whitespace fuel;
         str (required (exact "}") (fun _ => "Expected closing curly brace '}'"))
       ])
      (fun items _ => Object_fromEntries (nth 2 items JUndefined))
      input.

(** [fuel] bounds the depth of the calls of [jsonValue] inside itself and the
    iterations of every loop run at that depth. *)
Fixpoint jsonValue (fuel : nat) : Parser Json string :=
  fun input =>
    match fuel with
    | O => None
    | S fuel' =>
        oneOf [
          nil_;
          boolean;
          number fuel';
          string_ fuel';
          array_of fuel' (jsonValue fuel');
          object_of fuel' (jsonValue fuel')
        ] input
    end.

Definition array (fuel : nat) : Parser Json string := array_of fuel (jsonValue fuel).

Definition object (fuel : nat) : Parser Json string := object_of fuel (jsonValue fuel).

Definition jsonDocument (fuel : nat) : Parser Json string :=
  map
    (tuple [
       whitespace fuel;
       jsonValue fuel;
       whitespace fuel
     ])
    (fun items _ => nth 1 items JUndefined).

End Grammar.

Arguments Json number_t : clear implicits.

(** The text of the test 'JSON parser error 2'. *)
Definition error2_text : string := "{ " ++ dquote ++ "foo" ++ dquote ++ ": 12".

(** The text of the test 'JSON parser error 1'. *)
Definition error1_text : string := dquote ++ "foo".

(** The text of the test 'JSON parser success', [JSON.stringify(json)]. *)
Definition success_text : string :=
  "{" ++ dquote ++ "foo" ++ dquote ++ ":" ++ dquote ++ "bar" ++ dquote ++ ","
      ++ dquote ++ "blah" ++ dquote ++ ":123.4,"
      ++ dquote ++ "stuff" ++ dquote ++ ":true,"
      ++ dquote ++ "other" ++ dquote ++ ":[1,2,null,false]}".

End JsonTest.

Import Monch JsonTest.

#[local] Open Scope list_scope.

(** * Vocabulary of the properties *)

Section Runs.

Context {P Q E : Type}.

(** [chain ps c vs c']: the parsers [ps], run in order from the cursor [c],
    each from the cursor left by the one before, all return a success; [vs]
    are their values and [c'] is the cursor left by the last. *)
Inductive chain : list (Parser P E) -> ParseInput -> list P -> ParseInput -> Prop :=
| chain_nil : forall c, chain [] c [] c
| chain_cons : forall p ps c c' c'' s v vs,
    p c = Some (Success c' s v) ->
    chain ps c' vs c'' ->
    chain (p :: ps) c (v :: vs) c''.

Variable item : Parser P E.
Variable sep : option (Parser Q E).

(** What the first half of an iteration of [manySep0] does when it does not
    return: with no item yet, or no separator given, the cursor stays; else
    the separator matched and the cursor is the one it left. *)
Inductive sep_passed (items : list P) (nextInput : ParseInput) : ParseInput -> Prop :=
| sep_skipped :
    items = [] \/ sep = None ->
    sep_passed items nextInput nextInput
| sep_matched : forall sp input' s w,
    items <> [] ->
    sep = Some sp ->
    sp nextInput = Some (Success input' s w) ->
    sep_passed items nextInput input'.

(** [manySep0_reaches input k nextInput items]: started on [input], the loop
    of [manySep0] begins its iteration number [k] (from 0) with the variables
    [nextInput] and [items]. *)
Inductive manySep0_reaches (input : ParseInput) : nat -> ParseInput -> list P -> Prop :=
| manySep0_start : manySep0_reaches input 0 input []
| manySep0_again : forall k nextInput items afterSep input' s v,
    manySep0_reaches input k nextInput items ->
    sep_passed items nextInput afterSep ->
    item afterSep = Some (Success input' s v) ->
    manySep0_reaches input (S k) input' (items ++ [v]).

(** [manySep0_fails input a e k]: in its iteration number [k] the loop of
    [manySep0] calls the separator or the item and gets the error of input
    [a] and payload [e]. *)
Inductive manySep0_fails (input a : ParseInput) (e : E) : nat -> Prop :=
| manySep0_fails_sep : forall k nextInput items sp,
    manySep0_reaches input k nextInput items ->
    items <> [] ->
    sep = Some sp ->
    sp nextInput = Some (Error a e) ->
    manySep0_fails input a e k
| manySep0_fails_item : forall k nextInput items afterSep,
    manySep0_reaches input k nextInput items ->
    sep_passed items nextInput afterSep ->
    item afterSep = Some (Error a e) ->
    manySep0_fails input a e k.

(** [manySep0_stops items nextInput n]: an iteration of the loop of
    [manySep0] that begins with [nextInput] and [items] ends the loop at the
    cursor [n]: the separator is tried and returns [undefined], and [n] is
    [nextInput]; or the item returns [undefined] at [n], the cursor after the
    separator. *)
Inductive manySep0_stops (items : list P) (nextInput : ParseInput) : ParseInput -> Prop :=
| manySep0_stops_sep : forall sp,
    items <> [] ->
    sep = Some sp ->
    sp nextInput = Some Undefined ->
    manySep0_stops items nextInput nextInput
| manySep0_stops_item : forall afterSep,
    sep_passed items nextInput afterSep ->
    item afterSep = Some Undefined ->
    manySep0_stops items nextInput afterSep.

End Runs.

(** [take0_reaches c input k nextInput res]: started on [input], the loop of
    [take0 c] begins its iteration number [k] (from 0) with the variables
    [nextInput] and [res]. *)
Inductive take0_reaches {E : Type} (charParser : Parser string E) (input : ParseInput)
  : nat -> ParseInput -> string -> Prop :=
| take0_start : take0_reaches charParser input 0 input ""
| take0_again : forall k nextInput res input' s parsed,
    take0_reaches charParser input k nextInput res ->
    charParser nextInput = Some (Success input' s parsed) ->
    take0_reaches charParser input (S k) input' (res ++ parsed)%string.

(** A parser returns on every cursor. *)
Definition returns {P E : Type} (p : Parser P E) : Prop :=
  forall c, p c <> None.

(** Every success of a parser leaves a cursor of strictly greater offset. *)
Definition advances {P E : Type} (p : Parser P E) : Prop :=
  forall c c' s v, p c = Some (Success c' s v) -> index c < index c'.

(** Every success of a parser leaves a cursor on the same text, at most at
    its end. *)
Definition stays_inside {P E : Type} (p : Parser P E) : Prop :=
  forall c c' s v, p c = Some (Success c' s v) ->
    code c' = code c /\ index c' <= str_length (code c).

(** The longest prefix of [s] whose characters are all in the class. *)
Fixpoint take_while (cls : ascii -> bool) (s : string) : string :=
  match s with
  | EmptyString => EmptyString
  | String a s' => if cls a then String a (take_while cls s') else EmptyString
  end.

(** Every character of [s] is in the class. *)
Fixpoint all_in (cls : ascii -> bool) (s : string) : bool :=
  match s with
  | EmptyString => true
  | String a s' => cls a && all_in cls s'
  end.

(** The text that is left at a cursor, [input.code.substring(input.index)]. *)
Definition remaining (c : ParseInput) : string := js_substring (code c) (index c).

(** A parser returns no error. *)
Definition never_fails {P E : Type} (p : Parser P E) : Prop :=
  forall c a e, p c <> Some (Error a e).

(** Every error of a parser has a payload in [ok]. *)
Definition errors_only {P E : Type} (ok : E -> Prop) (p : Parser P E) : Prop :=
  forall c a e, p c = Some (Error a e) -> ok e.

(** A cursor inside its text, the end included. *)
Definition valid (c : ParseInput) : Prop := 0 <= index c <= str_length (code c).

(** Given a cursor inside its text, a parser answers with cursors inside the
    same text and not before the one given; the span of a success runs from
    the cursor given to the cursor left. *)
Definition tidy {P E : Type} (p : Parser P E) : Prop :=
  forall c, valid c ->
    (forall c' s v, p c = Some (Success c' s v) ->
       code c' = code c /\ index c <= index c' /\ valid c' /\ s = span c c') /\
    (forall a e, p c = Some (Error a e) ->
       code a = code c /\ index c <= index a /\ valid a).

(** The messages of the JSON grammar of deno_test.ts. *)
Definition json_messages : list string :=
  [ "Expected numbers after decimal point";
    ("Expected closing quote '" ++ dquote ++ "'")%string;
    "Expected closing bracket ']'";
    "Expected ':' after object key";
    "Expected value after ':'";
    "Expected closing curly brace '}'" ].

(** A one-character parser of the class [cls]: it succeeds exactly on a
    cursor inside the text whose character is in the class, takes that
    character and moves by one; elsewhere it returns [undefined]. *)
Definition takes_class {E : Type} (cls : ascii -> bool) (p : Parser string E) : Prop :=
  forall c,
    (forall a, 0 <= index c -> String.get (Z.to_nat (index c)) (code c) = Some a ->
       p c = if cls a
             then Some (Success {| code := code c; index := index c + 1 |}
                                {| src_code := code c; start := index c;
                                   end_ := index c + 1 |}
                                (String a EmptyString))
             else Some Undefined) /\
    (index c < 0 \/ str_length (code c) <= index c -> p c = Some Undefined).

(** A comparison of two levels for the examples: by what they answer on the
    text [+]. *)
Definition alike_on_plus (p q : Parser string string) : bool :=
  match p (input "+"), q (input "+") with
  | Some (Success _ _ _), Some (Success _ _ _) => true
  | Some Undefined, Some Undefined => true
  | _, _ => false
  end.

(** The cursor [n] characters further on the same text. *)
Definition advance (c : ParseInput) (n : nat) : ParseInput :=
  {| code := code c; index := index c + Z.of_nat n |}.

(** A character parser that commits to the letter a:
    [required(exact('a'), () => `Expected 'a'`)]. *)
Definition an_a : Parser string string :=
  required (exact "a") (fun _ => "Expected 'a'").

(** * Properties of the transformation combinators *)

Section Transformations.

Context {P E : Type}.
Variable p : Parser P E.
Variable c : ParseInput.

(** C4. When [p] returns [undefined] at [c], [required p f] returns the error
    whose input is [c] itself and whose payload is [f c]; a success or an
    error of [p] is returned as it is. *)
Theorem required_spec (f : ParseInput -> E) :
  (p c = Some Undefined -> required p f c = Some (Error c (f c))) /\
  (forall n s v, p c = Some (Success n s v) -> required p f c = Some (Success n s v)) /\
  (forall a e, p c = Some (Error a e) -> required p f c = Some (Error a e)).
Proof.
  unfold required.
  repeat split; intros; match goal with H : p c = _ |- _ => rewrite H end; reflexivity.
Qed.

(** C6. When [p] succeeds with a value that [pred] rejects, [filter p pred]
    returns [undefined], which carries no cursor: an alternative [q] tried
    next by [oneOf] runs on the original cursor [c].  A success that [pred]
    accepts, an [undefined] and an error of [p] are returned as they are. *)
Theorem filter_spec (pred : P -> bool) :
  (forall n s v, p c = Some (Success n s v) -> pred v = false ->
     filter p pred c = Some Undefined /\
     forall q : Parser P E, oneOf [filter p pred; q] c = oneOf [q] c) /\
  (forall n s v, p c = Some (Success n s v) -> pred v = true ->
     filter p pred c = Some (Success n s v)) /\
  (p c = Some Undefined -> filter p pred c = Some Undefined) /\
  (forall a e, p c = Some (Error a e) -> filter p pred c = Some (Error a e)).
Proof.
  split; [| split; [| split]].
  - intros n s v Hp Hv.
    assert (Hf : filter p pred c = Some Undefined)
      by (unfold filter; rewrite Hp, Hv; reflexivity).
    split; [exact Hf |].
    intro q. simpl. rewrite Hf. reflexivity.
  - intros n s v Hp Hv. unfold filter. rewrite Hp, Hv. reflexivity.
  - intro Hp. unfold filter. rewrite Hp. reflexivity.
  - intros a e Hp. unfold filter. rewrite Hp. reflexivity.
Qed.

End Transformations.

(** C5. When [p] returns [undefined] at [c], [optional p] returns a success
    whose input is [c], whose span is the empty one at the offset of [c] and
    whose value is [undefined]; a success or an error of [p] is returned as
    it is, and an error returned by [optional p] is one [p] returned. *)
Theorem optional_spec {V E : Type} `{HasUndefined V} (p : Parser V E) (c : ParseInput) :
  (p c = Some Undefined ->
     optional p c =
       Some (Success c {| src_code := code c; start := index c; end_ := index c |}
                     js_undefined)) /\
  (forall n s v, p c = Some (Success n s v) -> optional p c = Some (Success n s v)) /\
  (forall a e, p c = Some (Error a e) -> optional p c = Some (Error a e)) /\
  (forall a e, optional p c = Some (Error a e) -> p c = Some (Error a e)).
Proof.
  unfold optional, nothing, span.
  destruct (p c) as [[n s v | a e |] |]; repeat split; intros; try congruence.
Qed.

(** * Properties of choice and sequencing *)

Section Choice.

Context {P E : Type}.
Variable c : ParseInput.

(** Alternatives that return [undefined] at [c] are passed over. *)
Lemma oneOf_skip (pre rest : list (Parser P E)) :
  Forall (fun q => q c = Some Undefined) pre ->
  oneOf (pre ++ rest) c = oneOf rest c.
Proof.
  induction 1 as [| q pre Hq _ IH]; simpl.
  - reflexivity.
  - rewrite Hq. exact IH.
Qed.

(** C3. [oneOf] runs the alternatives in order on the same cursor [c]: when
    all those before [p] return [undefined] and [p] returns a success or an
    error, that result is the result of [oneOf], whatever the alternatives
    [post] after [p] are or do (they are not run: the result is the same when
    they are left out); when every alternative returns [undefined], and so
    when there is none, [oneOf] returns [undefined]. *)
Theorem oneOf_spec (ps : list (Parser P E)) :
  (forall pre p post r,
      ps = pre ++ p :: post ->
      Forall (fun q => q c = Some Undefined) pre ->
      p c = Some r -> r <> Undefined ->
      oneOf ps c = Some r /\ oneOf (pre ++ [p]) c = Some r) /\
  (Forall (fun q => q c = Some Undefined) ps -> oneOf ps c = Some Undefined).
Proof.
  split.
  - intros pre p post r -> Hpre Hp Hr.
    rewrite !oneOf_skip by assumption. simpl. rewrite Hp.
    destruct r; try contradiction; split; reflexivity.
  - intro Hall. rewrite <- (app_nil_r ps). rewrite oneOf_skip by assumption.
    reflexivity.
Qed.

End Choice.

Section Sequencing.

Context {P E : Type}.

(** A chain of successes takes the loop of [tuple] through its pieces. *)
Lemma tuple_loop_chain (ps rest : list (Parser P E)) (input n n' : ParseInput)
    (vs items : list P) :
  chain ps n vs n' ->
  tuple_loop (ps ++ rest) input n items = tuple_loop rest input n' (items ++ vs).
Proof.
  intro Hch. revert items.
  induction Hch as [n | p ps n n1 n2 s v vs Hp _ IH]; intro items; simpl.
  - rewrite app_nil_r. reflexivity.
  - rewrite Hp, IH, <- app_assoc. reflexivity.
Qed.

(** A success of the loop of [tuple] comes from a chain of successes. *)
Lemma tuple_loop_success (ps : list (Parser P E)) :
  forall input n items n' s out,
    tuple_loop ps input n items = Some (Success n' s out) ->
    exists vs, chain ps n vs n' /\ out = items ++ vs /\ s = span input n'.
Proof.
  induction ps as [| p ps IH]; simpl; intros input n items n' s out Hrun.
  - injection Hrun as <- <- <-. exists []. rewrite app_nil_r.
    repeat split. constructor.
  - destruct (p n) as [[n1 s1 v | a e |] |] eqn:Hp; try discriminate.
    apply IH in Hrun. destruct Hrun as (vs & Hch & -> & ->).
    exists (v :: vs). rewrite <- app_assoc. repeat split.
    econstructor; eassumption.
Qed.

(** C2. [tuple ps] returns a success exactly when the parsers of [ps] all
    return a success, run in order, each from the cursor left by the one
    before; the value is then the list of their values, the span starts at
    the offset of the first cursor and ends at the offset of the cursor left
    by the last parser.  When the parsers before [p] succeed and [p] returns
    [undefined] or an error, [tuple] returns that [undefined] or that
    error. *)
Theorem tuple_spec (ps : list (Parser P E)) (c : ParseInput) :
  (forall n s vs,
      tuple ps c = Some (Success n s vs) <->
      chain ps c vs n /\
      s = {| src_code := code c; start := index c; end_ := index n |}) /\
  (forall pre p post c' vs,
      ps = pre ++ p :: post ->
      chain pre c vs c' ->
      (p c' = Some Undefined -> tuple ps c = Some Undefined) /\
      (forall a e, p c' = Some (Error a e) -> tuple ps c = Some (Error a e))).
Proof.
  split.
  - intros n s vs. unfold tuple. split.
    + intro Hrun. apply tuple_loop_success in Hrun.
      destruct Hrun as (vs' & Hch & -> & ->). split; [exact Hch | reflexivity].
    + intros [Hch ->].
      rewrite <- (app_nil_r ps), (tuple_loop_chain _ _ _ _ _ _ _ Hch).
      reflexivity.
  - intros pre p post c' vs -> Hch. unfold tuple.
    rewrite (tuple_loop_chain _ _ _ _ _ _ _ Hch). simpl.
    split; [intros -> | intros a e ->]; reflexivity.
Qed.

End Sequencing.

(** * Properties of the repetition loops *)

Section Separated.

Context {P Q E : Type}.
Variable item : Parser P E.
Variable sep : option (Parser Q E).
Variable input : ParseInput.

(** One iteration of the loop of [manySep0] in which the separator, if it is
    tried at all, matches: the result of the item decides. *)
Lemma manySep0_loop_item (fuel : nat) (nextInput afterSep : ParseInput)
    (items : list P) (r : ParseResult P E) :
  sep_passed sep items nextInput afterSep ->
  item afterSep = Some r ->
  manySep0_loop (S fuel) item sep input nextInput items =
    match r with
    | Undefined => Some (Success afterSep (span input afterSep) items)
    | Error a e => Some (Error a e)
    | Success input' _ v => manySep0_loop fuel item sep input input' (items ++ [v])
    end.
Proof.
  intros Hsep Hitem. simpl.
  destruct Hsep as [[-> | ->] | sp input' s w Hne -> Hsp].
  - simpl. rewrite Hitem. destruct r; reflexivity.
  - destruct (0 <? length items)%nat; rewrite Hitem; destruct r; reflexivity.
  - destruct items as [| v0 items']; [contradiction |].
    simpl. rewrite Hsp, Hitem. destruct r; reflexivity.
Qed.

(** One iteration in which the separator is tried: its [undefined] ends the
    loop with a success at the cursor before it, its error is returned. *)
Lemma manySep0_loop_sep (fuel : nat) (nextInput : ParseInput) (items : list P)
    (sp : Parser Q E) (r : ParseResult Q E) :
  items <> [] -> sep = Some sp -> sp nextInput = Some r ->
  (r = Undefined ->
     manySep0_loop (S fuel) item sep input nextInput items =
       Some (Success nextInput (span input nextInput) items)) /\
  (forall a e, r = Error a e ->
     manySep0_loop (S fuel) item sep input nextInput items = Some (Error a e)).
Proof.
  intros Hne -> Hsp.
  destruct items as [| v0 items']; [contradiction |].
  split; [intros -> | intros a e ->]; simpl; rewrite Hsp; reflexivity.
Qed.

(** A state the loop reaches after [k] iterations is the state it continues
    from, with the fuel that is left. *)
Lemma manySep0_reaches_loop (k : nat) (nextInput : ParseInput) (items : list P) :
  manySep0_reaches item sep input k nextInput items ->
  forall fuel,
    manySep0 (k + fuel) item sep input =
    manySep0_loop fuel item sep input nextInput items.
Proof.
  induction 1 as [| k nextInput items afterSep input' s v _ IH Hsep Hitem];
    intro fuel.
  - reflexivity.
  - replace (S k + fuel)%nat with (k + S fuel)%nat by lia.
    rewrite IH. exact (manySep0_loop_item _ _ _ _ _ Hsep Hitem).
Qed.

(** The loop never returns [undefined]. *)
Lemma manySep0_loop_defined (fuel : nat) :
  forall nextInput items,
    manySep0_loop fuel item sep input nextInput items <> Some Undefined.
Proof.
  induction fuel as [| fuel IH]; intros nextInput items; simpl; [discriminate |].
  destruct (if (0 <? length items)%nat then sep else None) as [sp |].
  - destruct (sp nextInput) as [[n1 s1 w | a e |] |]; try discriminate.
    destruct (item n1) as [[n2 s2 v | a e |] |]; try discriminate. apply IH.
  - destruct (item nextInput) as [[n2 s2 v | a e |] |]; try discriminate.
    apply IH.
Qed.

End Separated.

(** C7. When the item returns [undefined] at the starting cursor [c],
    [manySep0] returns a success with no item, the cursor [c] and the empty
    span at the offset of [c], and [manySep1] and [many1] return
    [undefined]; this for every bound of at least one iteration.  [manySep0]
    returns [undefined] on no input and under no bound. *)
Theorem manySep0_no_item {P Q E : Type} (item : Parser P E) (sep : option (Parser Q E))
    (c : ParseInput) (fuel : nat) :
  (item c = Some Undefined ->
     manySep0 (S fuel) item sep c =
       Some (Success c {| src_code := code c; start := index c; end_ := index c |} [])
     /\ manySep1 (S fuel) item sep c = Some Undefined
     /\ many1 (S fuel) item c = Some Undefined) /\
  manySep0 fuel item sep c <> Some Undefined.
Proof.
  split; [| apply manySep0_loop_defined].
  intro Hitem.
  assert (Hrun : forall (Q' : Type) (sep' : option (Parser Q' E)),
             manySep0 (S fuel) item sep' c = Some (Success c (span c c) [])).
  { intros Q' sep'. unfold manySep0.
    rewrite (manySep0_loop_item item sep' c fuel c c [] Undefined);
      [reflexivity | | exact Hitem].
    constructor. left. reflexivity. }
  repeat split.
  - apply Hrun.
  - unfold manySep1, filter. rewrite Hrun. reflexivity.
  - unfold many1, manySep1, filter. rewrite Hrun. reflexivity.
Qed.

(** C9. When the loop of [manySep0 item (Some sp)] begins an iteration with
    at least one item in [items], the separator [sp] matches there and the
    item returns [undefined] at the cursor [afterSep] the separator left,
    [manySep0] returns a success with [items], whose cursor is [afterSep]
    and whose span ends at the offset of [afterSep]: the separator is
    consumed. *)
Theorem manySep0_trailing_separator {P Q E : Type} (item : Parser P E)
    (sp : Parser Q E) (input : ParseInput) (k : nat) (nextInput afterSep : ParseInput)
    (items : list P) (s : ParseSource) (w : Q) (fuel : nat) :
  manySep0_reaches item (Some sp) input k nextInput items ->
  items <> [] ->
  sp nextInput = Some (Success afterSep s w) ->
  item afterSep = Some Undefined ->
  manySep0 (k + S fuel) item (Some sp) input =
    Some (Success afterSep
            {| src_code := code input; start := index input; end_ := index afterSep |}
            items).
Proof.
  intros Hreach Hne Hsp Hitem.
  rewrite (manySep0_reaches_loop _ _ _ _ _ _ Hreach).
  rewrite (manySep0_loop_item item (Some sp) input fuel nextInput afterSep items Undefined).
  - reflexivity.
  - eapply sep_matched; [exact Hne | reflexivity | exact Hsp].
  - exact Hitem.
Qed.

Section Characters.

Context {E : Type}.
Variable charParser : Parser string E.
Variable input : ParseInput.

(** A state the loop of [take0] reaches after [k] iterations is the state it
    continues from, with the fuel that is left. *)
Lemma take0_reaches_loop (k : nat) (nextInput : ParseInput) (res : string) :
  take0_reaches charParser input k nextInput res ->
  forall fuel,
    take0 (k + fuel) charParser input = take0_loop fuel charParser input nextInput res.
Proof.
  induction 1 as [| k nextInput res input' s parsed _ IH Hchar]; intro fuel.
  - reflexivity.
  - replace (S k + fuel)%nat with (k + S fuel)%nat by lia.
    rewrite IH. simpl. rewrite Hchar. reflexivity.
Qed.

(** An error of the character parser is the result of [take0] and of
    [take1]. *)
Lemma take0_error (k : nat) (nextInput : ParseInput) (res : string)
    (a : ParseInput) (e : E) (fuel : nat) :
  take0_reaches charParser input k nextInput res ->
  charParser nextInput = Some (Error a e) ->
  take0 (k + S fuel) charParser input = Some (Error a e) /\
  take1 (k + S fuel) charParser input = Some (Error a e).
Proof.
  intros Hreach Hchar.
  assert (Hrun : take0 (k + S fuel) charParser input = Some (Error a e)).
  { rewrite (take0_reaches_loop _ _ _ Hreach). simpl. rewrite Hchar. reflexivity. }
  split; [exact Hrun |].
  unfold take1, filter. rewrite Hrun. reflexivity.
Qed.

End Characters.

(** An error of the separator or of the item is the result of [manySep0] and
    of [manySep1]. *)
Lemma manySep0_error {P Q E : Type} (item : Parser P E) (sep : option (Parser Q E))
    (input a : ParseInput) (e : E) (k fuel : nat) :
  manySep0_fails item sep input a e k ->
  manySep0 (k + S fuel) item sep input = Some (Error a e) /\
  manySep1 (k + S fuel) item sep input = Some (Error a e).
Proof.
  intro Hfail.
  assert (Hrun : manySep0 (k + S fuel) item sep input = Some (Error a e)).
  { destruct Hfail as [k nextInput items sp Hreach Hne Hsep Hsp
                      | k nextInput items afterSep Hreach Hsep Hitem];
      rewrite (manySep0_reaches_loop _ _ _ _ _ _ Hreach).
    - exact (proj2 (manySep0_loop_sep item sep input fuel _ _ _ _ Hne Hsep Hsp)
                   a e eq_refl).
    - exact (manySep0_loop_item item sep input fuel _ _ _ _ Hsep Hitem). }
  split; [exact Hrun |].
  unfold manySep1, filter. rewrite Hrun. reflexivity.
Qed.

(** C1. An error returned by a sub-parser that a combinator calls is the
    result of the combinator, with the same input and the same payload:
    for [map], [filter], [required] and [optional], an error of the parser;
    for [oneOf], an error of an alternative that is reached (those before it
    return [undefined]), whatever the alternatives after it; for [tuple], an
    error of a piece that is reached (those before it succeed), whatever the
    pieces after it; for [manySep0], [manySep1], [many0] and [many1], an
    error of the separator or of the item in some iteration of the loop; for
    [take0] and [take1], an error of the character parser in some iteration
    of the loop. *)
Theorem failed_propagates {P Q M E : Type} `{HasUndefined P} (a : ParseInput) (e : E) :
  (forall (p : Parser P E) c,
      p c = Some (Error a e) ->
      (forall fn : P -> ParseSource -> M, map p fn c = Some (Error a e)) /\
      (forall pred, filter p pred c = Some (Error a e)) /\
      (forall f, required p f c = Some (Error a e)) /\
      optional p c = Some (Error a e)) /\
  (forall (pre : list (Parser P E)) p post c,
      Forall (fun q => q c = Some Undefined) pre ->
      p c = Some (Error a e) ->
      oneOf (pre ++ p :: post) c = Some (Error a e)) /\
  (forall (pre : list (Parser P E)) p post c c' vs,
      chain pre c vs c' ->
      p c' = Some (Error a e) ->
      tuple (pre ++ p :: post) c = Some (Error a e)) /\
  (forall (item : Parser P E) (sep : option (Parser Q E)) input k fuel,
      manySep0_fails item sep input a e k ->
      manySep0 (k + S fuel) item sep input = Some (Error a e) /\
      manySep1 (k + S fuel) item sep input = Some (Error a e)) /\
  (forall (item : Parser P E) input k fuel,
      manySep0_fails item (@None (Parser unit E)) input a e k ->
      many0 (k + S fuel) item input = Some (Error a e) /\
      many1 (k + S fuel) item input = Some (Error a e)) /\
  (forall (charParser : Parser string E) input k nextInput res fuel,
      take0_reaches charParser input k nextInput res ->
      charParser nextInput = Some (Error a e) ->
      take0 (k + S fuel) charParser input = Some (Error a e) /\
      take1 (k + S fuel) charParser input = Some (Error a e)).
Proof.
  split; [| split; [| split; [| split; [| split]]]].
  - intros p c Hp. unfold map, filter, required, optional.
    rewrite Hp. repeat split.
  - intros pre p post c Hpre Hp.
    rewrite oneOf_skip by exact Hpre. simpl. rewrite Hp. reflexivity.
  - intros pre p post c c' vs Hch Hp.
    unfold tuple. rewrite (tuple_loop_chain _ _ _ _ _ _ _ Hch). simpl.
    rewrite Hp. reflexivity.
  - intros item sep input k fuel. apply manySep0_error.
  - intros item input k fuel. apply manySep0_error.
  - intros charParser input k nextInput res fuel. apply take0_error.
Qed.

(** * Termination of the loops *)

Section Progress.

Context {E : Type}.

(** With a character parser that returns, moves forward and stays inside the
    text, the loop of [take0] returns once its fuel exceeds the distance of
    the cursor to the end of the text. *)
Lemma take0_loop_returns (charParser : Parser string E) (input : ParseInput) :
  returns charParser -> advances charParser -> stays_inside charParser ->
  forall n nextInput res,
    str_length (code nextInput) - index nextInput <= Z.of_nat n ->
    exists r, take0_loop (S n) charParser input nextInput res = Some r.
Proof.
  intros Hret Hadv Hin.
  induction n as [| n IH]; intros nextInput res Hdist;
    cbn [take0_loop];
    destruct (charParser nextInput) as [[i s v | a e |] |] eqn:Hchar;
    try (eexists; reflexivity); try (exfalso; exact (Hret _ Hchar)).
  - pose proof (Hadv _ _ _ _ Hchar). destruct (Hin _ _ _ _ Hchar). lia.
  - apply IH.
    pose proof (Hadv _ _ _ _ Hchar). destruct (Hin _ _ _ _ Hchar) as [Hcode Hidx].
    rewrite Hcode. lia.
Qed.

(** The loop of [manySep0], unfolded once. *)
Lemma manySep0_loop_S {P Q : Type} (fuel : nat) (item : Parser P E)
    (sep : option (Parser Q E)) (input nextInput : ParseInput) (items : list P) :
  manySep0_loop (S fuel) item sep input nextInput items =
    let parse_item := fun nextInput : ParseInput =>
      match item nextInput with
      | None => None
      | Some Undefined => Some (Success nextInput (span input nextInput) items)
      | Some (Error input' err) => Some (Error input' err)
      | Some (Success input' _ parsed) =>
          manySep0_loop fuel item sep input input' (items ++ [parsed])
      end in
    match (if (0 <? List.length items)%nat then sep else None) with
    | Some sep' =>
        match sep' nextInput with
        | None => None
        | Some Undefined => Some (Success nextInput (span input nextInput) items)
        | Some (Error input' err) => Some (Error input' err)
        | Some (Success input' _ _) => parse_item input'
        end
    | None => parse_item nextInput
    end.
Proof. reflexivity. Qed.

(** The same for the loop of [manySep0]. *)
Lemma manySep0_loop_returns {P Q : Type} (item : Parser P E)
    (sep : option (Parser Q E)) (input : ParseInput) :
  returns item -> advances item -> stays_inside item ->
  (forall sp, sep = Some sp -> returns sp /\ advances sp /\ stays_inside sp) ->
  forall n nextInput items,
    str_length (code nextInput) - index nextInput <= Z.of_nat n ->
    exists r, manySep0_loop (S n) item sep input nextInput items = Some r.
Proof.
  intros Hret Hadv Hin Hsep.
  (* what a success of the item, and one of the separator, tell *)
  assert (Fitem : forall c c' s v, item c = Some (Success c' s v) ->
            code c' = code c /\ index c < index c' <= str_length (code c)).
  { intros c c' s v Hc. pose proof (Hadv _ _ _ _ Hc).
    destruct (Hin _ _ _ _ Hc). auto. }
  assert (Fsep : forall sp, sep = Some sp ->
            returns sp /\
            forall c c' s w, sp c = Some (Success c' s w) ->
              code c' = code c /\ index c < index c' <= str_length (code c)).
  { intros sp Hsp. destruct (Hsep _ Hsp) as (Hsret & Hsadv & Hsin).
    split; [exact Hsret |].
    intros c c' s w Hc. pose proof (Hsadv _ _ _ _ Hc).
    destruct (Hsin _ _ _ _ Hc). auto. }
  induction n as [| n IH]; intros nextInput items Hdist;
    rewrite manySep0_loop_S; cbv zeta;
    (destruct (if (0 <? length items)%nat then sep else None) as [sp |] eqn:Hsp;
     [ assert (Hsome : sep = Some sp)
         by (destruct (0 <? length items)%nat; [exact Hsp | discriminate]);
       destruct (Fsep _ Hsome) as [Hsret Hsfact];
       destruct (sp nextInput) as [[i s w | a e |] |] eqn:Hs;
       try (eexists; reflexivity); try (exfalso; exact (Hsret _ Hs));
       destruct (Hsfact _ _ _ _ Hs) as [Hcode1 Hidx1];
       destruct (item i) as [[i2 s2 v | a e |] |] eqn:Hi
     | destruct (item nextInput) as [[i2 s2 v | a e |] |] eqn:Hi ];
     try (eexists; reflexivity); try (exfalso; exact (Hret _ Hi));
     destruct (Fitem _ _ _ _ Hi) as [Hcode2 Hidx2]).
  - exfalso. rewrite Hcode1 in Hidx2. simpl in Hdist. lia.
  - exfalso. simpl in Hdist. lia.
  - apply IH. rewrite Hcode2, Hcode1. rewrite Hcode1 in Hidx2. lia.
  - apply IH. rewrite Hcode2. lia.
Qed.

(** [exact ""] matches everywhere and leaves the cursor where it is. *)
Lemma exact_empty (c : ParseInput) :
  @exact E "" c =
    Some (Success {| code := code c; index := index c + 0 |}
                  {| src_code := code c; start := index c; end_ := index c + 0 |} "").
Proof.
  unfold exact, startsWith. destruct (js_substring (code c) (index c)); reflexivity.
Qed.

Lemma take0_loop_exact_empty (fuel : nat) :
  forall input nextInput res,
    take0_loop fuel (@exact E "") input nextInput res = None.
Proof.
  induction fuel as [| fuel IH]; intros input nextInput res; cbn [take0_loop].
  - reflexivity.
  - rewrite exact_empty. apply IH.
Qed.

Lemma manySep0_loop_exact_empty (fuel : nat) :
  forall input nextInput items,
    manySep0_loop fuel (@exact E "") (@None (Parser unit E)) input nextInput items = None.
Proof.
  induction fuel as [| fuel IH]; intros input nextInput items; cbn [manySep0_loop].
  - reflexivity.
  - destruct (0 <? length items)%nat; rewrite exact_empty; apply IH.
Qed.

(** [exact ""] as a success at the very cursor it is given. *)
Lemma exact_empty_same (c : ParseInput) :
  @exact E "" c = Some (Success c (span c c) "").
Proof.
  rewrite exact_empty. destruct c as [t i]. unfold span. cbn [code index].
  rewrite Z.add_0_r. reflexivity.
Qed.

(** A character parser that succeeds at a cursor and leaves that same cursor
    keeps the loop of [take0] there: it does not return. *)
Lemma take0_loop_stuck (charParser : Parser string E) (input n : ParseInput)
    (s : ParseSource) (v : string) :
  charParser n = Some (Success n s v) ->
  forall fuel res, take0_loop fuel charParser input n res = None.
Proof.
  intros Hsame. induction fuel as [| fuel IH]; intro res; cbn [take0_loop].
  - reflexivity.
  - rewrite Hsame. apply IH.
Qed.

(** The same for the loop of [manySep0], when the separator, if there is
    one, also succeeds there and leaves that cursor. *)
Lemma manySep0_loop_stuck {P Q : Type} (item : Parser P E) (sep : option (Parser Q E))
    (input n : ParseInput) (s : ParseSource) (v : P) :
  item n = Some (Success n s v) ->
  (forall sp, sep = Some sp -> exists s' w, sp n = Some (Success n s' w)) ->
  forall fuel items, manySep0_loop fuel item sep input n items = None.
Proof.
  intros Hitem Hsep. induction fuel as [| fuel IH]; intro items.
  - reflexivity.
  - rewrite manySep0_loop_S. cbv zeta.
    destruct (if (0 <? length items)%nat then sep else None) as [sp |] eqn:Hsp.
    + assert (Hsome : sep = Some sp)
        by (destruct (0 <? length items)%nat; [exact Hsp | discriminate]).
      destruct (Hsep _ Hsome) as (s' & w & Hs). rewrite Hs, Hitem. apply IH.
    + rewrite Hitem. apply IH.
Qed.

End Progress.

(** [char] returns, moves forward by one and stays inside the text. *)
Lemma char_progress {E : Type} :
  returns (@char E) /\ advances (@char E) /\ stays_inside (@char E).
Proof.
  assert (Hsucc : forall c c' s v,
             @char E c = Some (Success c' s v) ->
             index c < str_length (code c) /\
             c' = {| code := code c; index := index c + 1 |}).
  { intros c c' s v. unfold char.
    destruct ((0 <=? index c) && (index c <? str_length (code c))) eqn:Hin;
      [| discriminate].
    intro Heq. injection Heq as <- _ _. split; [lia | reflexivity]. }
  split; [| split].
  - intro c. unfold char.
    destruct ((0 <=? index c) && (index c <? str_length (code c))); discriminate.
  - intros c c' s v Heq. destruct (Hsucc _ _ _ _ Heq) as [_ ->]. simpl. lia.
  - intros c c' s v Heq. destruct (Hsucc _ _ _ _ Heq) as [Hlt ->]. simpl.
    split; [reflexivity | lia].
Qed.

(** C10.  [take0 c] returns on every input, as soon as its bound exceeds the
    distance from the cursor to the end of the text, when every success of
    [c] leaves a cursor of strictly greater offset; here [c] is a parser in
    the sense of the data model: it returns on every cursor, and the cursor
    it leaves is on the same text and not beyond its end.  The same holds of
    [manySep0 item sep] when the item and the separator, if there is one, are
    such parsers.  Without strict progress the loops do not return: when the
    loop of [take0] reaches a cursor where the character parser succeeds and
    leaves that same cursor, [take0] returns under no bound, and so does
    [manySep0] when its loop reaches a cursor where the item, and the
    separator if there is one, succeed and leave that same cursor; [exact ""]
    is such a parser at every cursor, under [take0], [many0] and
    [manySep0]. *)
Theorem loops_terminate :
  (forall (E : Type) (charParser : Parser string E),
      returns charParser -> advances charParser -> stays_inside charParser ->
      forall input fuel,
        (Z.to_nat (str_length (code input) - index input) < fuel)%nat ->
        exists r, take0 fuel charParser input = Some r) /\
  (forall (P Q E : Type) (item : Parser P E) (sep : option (Parser Q E)),
      returns item -> advances item -> stays_inside item ->
      (forall sp, sep = Some sp -> returns sp /\ advances sp /\ stays_inside sp) ->
      forall input fuel,
        (Z.to_nat (str_length (code input) - index input) < fuel)%nat ->
        exists r, manySep0 fuel item sep input = Some r) /\
  (forall (E : Type) fuel input,
      take0 fuel (@exact E "") input = None /\
      many0 fuel (@exact E "") input = None /\
      manySep0 fuel (@exact E "") (Some (@exact E "")) input = None) /\
  (forall (E : Type) (charParser : Parser string E) input k n res s v fuel,
      take0_reaches charParser input k n res ->
      charParser n = Some (Success n s v) ->
      take0 (k + fuel) charParser input = None) /\
  (forall (P Q E : Type) (item : Parser P E) (sep : option (Parser Q E))
          input k n items s v fuel,
      manySep0_reaches item sep input k n items ->
      item n = Some (Success n s v) ->
      (forall sp, sep = Some sp -> exists s' w, sp n = Some (Success n s' w)) ->
      manySep0 (k + fuel) item sep input = None).
Proof.
  split; [| split; [| split; [| split]]].
  - intros E charParser Hret Hadv Hin input [| n] Hfuel; [lia |].
    apply take0_loop_returns; try assumption. lia.
  - intros P Q E item sep Hret Hadv Hin Hsep input [| n] Hfuel; [lia |].
    apply manySep0_loop_returns; try assumption. lia.
  - intros E fuel input. split; [| split].
    + apply take0_loop_exact_empty.
    + apply manySep0_loop_exact_empty.
    + unfold manySep0.
      apply (manySep0_loop_stuck (exact "") (Some (exact "")) input input
               (span input input) "").
      * apply exact_empty_same.
      * intros sp Hsp. injection Hsp as <-.
        exists (span input input), "". apply exact_empty_same.
  - intros E charParser input k n res s v fuel Hreach Hsame.
    rewrite (take0_reaches_loop _ _ _ _ _ Hreach).
    apply (take0_loop_stuck _ _ _ _ _ Hsame).
  - intros P Q E item sep input k n items s v fuel Hreach Hitem Hsep.
    rewrite (manySep0_reaches_loop _ _ _ _ _ _ Hreach).
    apply (manySep0_loop_stuck _ _ _ _ _ _ Hitem Hsep).
Qed.

(** * The JSON grammar on the text of the test 'JSON parser error 2' *)

(** [Object.fromEntries] lists array indices first, in ascending order, then
    the other keys in the order they were first set; a later entry of a key
    replaces its value. *)
Example fromEntries_order :
  @Object_fromEntries unit
    (JArray [JArray [JString "b"; JNull]; JArray [JString "1"; JNull];
             JArray [JString "0"; JBool true]; JArray [JString "b"; JBool false];
             JArray [JString "01"; JNull]]) =
    JObject [("0", JBool true); ("1", JNull); ("b", JBool false); ("01", JNull)].
Proof. reflexivity. Qed.

(** The two other tests of deno_test.ts, on the embedding. *)
Example json_success {number_t : Type} (Number : string -> number_t) :
  jsonDocument Number 10 (input success_text) =
    Some (Success {| code := success_text; index := str_length success_text |}
                  {| src_code := success_text; start := 0;
                     end_ := str_length success_text |}
                  (JObject [("foo", JString "bar");
                            ("blah", JNumber (Number "123.4"));
                            ("stuff", JBool true);
                            ("other", JArray [JNumber (Number "1"); JNumber (Number "2");
                                              JNull; JBool false])])).
Proof. vm_compute. reflexivity. Qed.

Example json_error1 {number_t : Type} (Number : string -> number_t) :
  jsonDocument Number 10 (input error1_text) =
    Some (Error {| code := error1_text; index := 4 |}
                ("Expected closing quote '" ++ dquote ++ "'")%string).
Proof. vm_compute. reflexivity. Qed.

(** C8. On the text [{ "foo": 12], [jsonValue] and [jsonDocument] return the
    error whose input is at offset 11 and whose payload is the message of the
    missing closing curly brace; this under every bound of at least 5,
    whatever [Number] is. *)
Theorem json_error2 {number_t : Type} (Number : string -> number_t) (fuel : nat) :
  (5 <= fuel)%nat ->
  jsonValue Number fuel (input error2_text) =
    Some (Error {| code := error2_text; index := 11 |}
                "Expected closing curly brace '}'") /\
  jsonDocument Number fuel (input error2_text) =
    Some (Error {| code := error2_text; index := 11 |}
                "Expected closing curly brace '}'").
Proof.
  intro Hfuel.
  do 5 (destruct fuel as [| fuel]; [lia |]). clear Hfuel.
  split; vm_compute; reflexivity.
Qed.

(** * The properties at concrete inputs *)

Lemma failed_propagates_witness :
  take0 2 an_a (input "ab") = Some (Error {| code := "ab"; index := 1 |} "Expected 'a'") /\
  take1 2 an_a (input "ab") = Some (Error {| code := "ab"; index := 1 |} "Expected 'a'").
Proof.
  refine (proj2 (proj2 (proj2 (proj2 (proj2
            (@failed_propagates unit unit unit string _
               {| code := "ab"; index := 1 |} "Expected 'a'")))))
          an_a (input "ab") 1%nat {| code := "ab"; index := 1 |} "a" 0%nat _ _).
  - apply (take0_again an_a (input "ab") 0 (input "ab") ""
             {| code := "ab"; index := 1 |}
             {| src_code := "ab"; start := 0; end_ := 1 |} "a").
    + apply take0_start.
    + reflexivity.
  - reflexivity.
Defined.

Lemma tuple_spec_witness :
  tuple [@exact string "a"; exact "b"] (input "ab") =
    Some (Success {| code := "ab"; index := 2 |}
                  {| src_code := "ab"; start := 0; end_ := 2 |} ["a"; "b"]).
Proof.
  apply (proj1 (tuple_spec [@exact string "a"; exact "b"] (input "ab"))).
  split; [| reflexivity].
  eapply chain_cons; [reflexivity |].
  eapply chain_cons; [reflexivity |].
  apply chain_nil.
Defined.

Lemma oneOf_spec_witness :
  oneOf [@exact string "x"; exact "a"; exact "ab"] (input "ab") =
    Some (Success {| code := "ab"; index := 1 |}
                  {| src_code := "ab"; start := 0; end_ := 1 |} "a").
Proof.
  refine (proj1 (proj1 (oneOf_spec (input "ab")
                          [@exact string "x"; exact "a"; exact "ab"])
                   [exact "x"] (exact "a") [exact "ab"] _ eq_refl _ eq_refl _)).
  - constructor; [reflexivity | constructor].
  - discriminate.
Defined.

Lemma required_spec_witness :
  an_a (input "b") = Some (Error (input "b") "Expected 'a'").
Proof.
  apply (proj1 (required_spec (exact "a") (input "b") (fun _ => "Expected 'a'"))).
  reflexivity.
Defined.

Lemma optional_spec_witness :
  optional (map (@exact string "a") (fun s _ => Some s)) (input "b") =
    Some (Success (input "b") {| src_code := "b"; start := 0; end_ := 0 |} None).
Proof.
  apply (proj1 (optional_spec (map (@exact string "a") (fun s _ => Some s)) (input "b"))).
  reflexivity.
Defined.

Lemma filter_spec_witness :
  @numericChar string (input "x1") = Some Undefined /\
  forall q : Parser string string,
    oneOf [numericChar; q] (input "x1") = oneOf [q] (input "x1").
Proof.
  apply (proj1 (filter_spec char (input "x1") (js_match numericRegex))
           {| code := "x1"; index := 1 |}
           {| src_code := "x1"; start := 0; end_ := 1 |} "x");
    reflexivity.
Defined.

Lemma manySep0_no_item_witness :
  manySep0 1 (@exact string "a") (Some (@exact string ",")) (input "b") =
    Some (Success (input "b") {| src_code := "b"; start := 0; end_ := 0 |} []) /\
  manySep1 1 (@exact string "a") (Some (@exact string ",")) (input "b") = Some Undefined /\
  many1 1 (@exact string "a") (input "b") = Some Undefined.
Proof.
  apply (proj1 (manySep0_no_item (exact "a") (Some (exact ",")) (input "b") 0)).
  reflexivity.
Defined.

Lemma manySep0_trailing_separator_witness :
  manySep0 2 (@exact string "a") (Some (@exact string ",")) (input "a,") =
    Some (Success {| code := "a,"; index := 2 |}
                  {| src_code := "a,"; start := 0; end_ := 2 |} ["a"]).
Proof.
  apply (manySep0_trailing_separator (exact "a") (exact ",") (input "a,") 1
           {| code := "a,"; index := 1 |} {| code := "a,"; index := 2 |} ["a"]
           {| src_code := "a,"; start := 1; end_ := 2 |} "," 0).
  - apply (manySep0_again (exact "a") (Some (exact ",")) (input "a,") 0
             (input "a,") [] (input "a,") {| code := "a,"; index := 1 |}
             {| src_code := "a,"; start := 0; end_ := 1 |} "a").
    + apply manySep0_start.
    + apply sep_skipped. left. reflexivity.
    + reflexivity.
  - discriminate.
  - reflexivity.
  - reflexivity.
Defined.

Lemma loops_terminate_witness :
  exists r, take0 3 (@char string) (input "ab") = Some r.
Proof.
  apply (proj1 loops_terminate string char
           (proj1 char_progress) (proj1 (proj2 char_progress))
           (proj2 (proj2 char_progress)) (input "ab") 3%nat).
  simpl. lia.
Defined.

Lemma json_error2_witness :
  jsonValue (fun s => s) 5 (input error2_text) =
    Some (Error {| code := error2_text; index := 11 |}
                "Expected closing curly brace '}'") /\
  jsonDocument (fun s => s) 5 (input error2_text) =
    Some (Error {| code := error2_text; index := 11 |}
                "Expected closing curly brace '}'").
Proof.
  apply (json_error2 (fun s => s) 5). apply le_n.
Defined.

(** * Further properties of the library *)

(** ** Strings *)

Lemma append_empty_r (s : string) : (s ++ "")%string = s.
Proof. induction s as [| a s IH]; simpl; [| rewrite IH]; reflexivity. Qed.

Lemma append_assoc (s t u : string) : ((s ++ t) ++ u)%string = (s ++ (t ++ u))%string.
Proof. induction s as [| a s IH]; simpl; [| rewrite IH]; reflexivity. Qed.

Lemma length_append (s t : string) :
  String.length (s ++ t) = (String.length s + String.length t)%nat.
Proof. induction s as [| a s IH]; simpl; [| rewrite IH]; reflexivity. Qed.

Lemma startsWith_append (str rest : string) : startsWith (str ++ rest) str = true.
Proof.
  unfold startsWith. induction str as [| a str IH]; simpl.
  - destruct rest; reflexivity.
  - destruct (ascii_dec a a) as [_ | Hne]; [exact IH | contradiction].
Qed.

Lemma startsWith_inv (str : string) :
  forall s, startsWith s str = true -> exists rest, s = (str ++ rest)%string.
Proof.
  unfold startsWith. induction str as [| a str IH]; intros s Hs.
  - exists s. reflexivity.
  - destruct s as [| b s]; simpl in Hs; [discriminate |].
    destruct (ascii_dec a b) as [<- | _]; [| discriminate].
    destruct (IH _ Hs) as [rest ->]. exists rest. reflexivity.
Qed.

Lemma drop_all (n : nat) :
  forall s, (String.length s <= n)%nat -> drop n s = "".
Proof.
  induction n as [| n IH]; intros [| a s] Hlen; simpl in *;
    try reflexivity; try lia.
  apply IH. lia.
Qed.

Lemma drop_length (n : nat) :
  forall s, String.length (drop n s) = (String.length s - n)%nat.
Proof.
  induction n as [| n IH]; intros [| a s]; simpl; try reflexivity; try lia.
  apply IH.
Qed.

Lemma drop_plus (n m : nat) :
  forall s, drop (n + m) s = drop m (drop n s).
Proof.
  induction n as [| n IH]; intros [| a s]; simpl; try reflexivity.
  - destruct m; reflexivity.
  - apply IH.
Qed.

Lemma drop_append (s t : string) : drop (String.length s) (s ++ t) = t.
Proof. induction s as [| a s IH]; simpl; [destruct t; reflexivity | exact IH]. Qed.

(** The character at a position is the head of what is left from it. *)
Lemma drop_get (n : nat) :
  forall s,
    match drop n s with
    | EmptyString => String.get n s = None /\ (String.length s <= n)%nat
    | String a rest =>
        String.get n s = Some a /\ (n < String.length s)%nat /\
        String.substring n 1 s = String a "" /\ drop (S n) s = rest
    end.
Proof.
  induction n as [| n IH]; intros [| a s]; simpl.
  - split; [reflexivity | lia].
  - repeat split; try lia. destruct s; reflexivity.
  - split; [reflexivity | lia].
  - specialize (IH s). destruct (drop n s) as [| b rest].
    + destruct IH as [Hget Hlen]. split; [exact Hget | lia].
    + destruct IH as (Hget & Hlt & Hsub & Hdrop). repeat split; try assumption. lia.
Qed.

(** ** Primitive parsers *)

(** X1. [exact str] succeeds exactly when the text left at the cursor starts
    with [str]; the cursor then moves by the length of [str] on the same
    text, the span covers that move and the value is [str].  Otherwise it
    returns [undefined], in particular for a non-empty [str] at or beyond the
    end of the text; it returns no error. *)
Theorem exact_spec {E : Type} (str : string) (c : ParseInput) :
  ((exists rest, remaining c = (str ++ rest)%string) ->
     @exact E str c =
       Some (Success {| code := code c; index := index c + str_length str |}
                     {| src_code := code c; start := index c;
                        end_ := index c + str_length str |}
                     str)) /\
  ((~ exists rest, remaining c = (str ++ rest)%string) ->
     @exact E str c = Some Undefined) /\
  (str_length (code c) <= index c -> str <> "" -> @exact E str c = Some Undefined) /\
  (forall a e, @exact E str c <> Some (Error a e)).
Proof.
  unfold exact, remaining. repeat split.
  - intros [rest ->]. rewrite startsWith_append. reflexivity.
  - intro Hno.
    destruct (startsWith (js_substring (code c) (index c)) str) eqn:Hs;
      [| reflexivity].
    exfalso. apply Hno. apply startsWith_inv. exact Hs.
  - intros Hend Hne. unfold js_substring, str_length in *.
    rewrite drop_all by lia.
    destruct str; [contradiction | reflexivity].
  - intros a e.
    destruct (startsWith (js_substring (code c) (index c)) str); discriminate.
Qed.

Lemma exact_spec_witness :
  @exact string "ab" {| code := "xaby"; index := 1 |} =
    Some (Success {| code := "xaby"; index := 3 |}
                  {| src_code := "xaby"; start := 1; end_ := 3 |} "ab").
Proof.
  apply (proj1 (@exact_spec string "ab" {| code := "xaby"; index := 1 |})).
  exists "y". reflexivity.
Defined.

(** [char] filtered by a predicate on one-character strings is a
    one-character parser of the class the predicate defines. *)
Lemma filter_char_takes_class {E : Type} (pred : string -> bool) :
  takes_class (fun a => pred (String a "")) (filter (@char E) pred).
Proof.
  intro c. split.
  - intros a Hpos Hget. unfold filter, char, js_char_at, str_length.
    pose proof (drop_get (Z.to_nat (index c)) (code c)) as Hd.
    destruct (drop (Z.to_nat (index c)) (code c)) as [| b rest].
    + destruct Hd as [Hnone _]. congruence.
    + destruct Hd as (Hsome & Hlt & Hsub & _).
      assert (b = a) as -> by congruence.
      replace ((0 <=? index c) && (index c <? Z.of_nat (String.length (code c))))
        with true by (symmetry; apply andb_true_iff; split; lia).
      rewrite Hsub. destruct (pred (String a "")); reflexivity.
  - intro Hout. unfold filter, char, str_length in *.
    replace ((0 <=? index c) && (index c <? Z.of_nat (String.length (code c))))
      with false; [reflexivity |].
    symmetry. apply andb_false_iff. destruct Hout; [left | right]; lia.
Qed.

Lemma js_match_one (cls : ascii -> bool) (a : ascii) :
  js_match cls (String a "") = cls a.
Proof. unfold js_match. simpl. apply orb_false_r. Qed.

Lemma takes_class_ext {E : Type} (cls cls' : ascii -> bool) (p : Parser string E) :
  (forall a, cls a = cls' a) -> takes_class cls p -> takes_class cls' p.
Proof.
  intros Hext Hp c. destruct (Hp c) as [Hin Hout]. split; [| exact Hout].
  intros a Hpos Hget. rewrite <- Hext. apply Hin; assumption.
Qed.

(** X2. [whitespaceChar], [numericChar] and [alphaChar] are one-character
    parsers of the classes of their regular expressions: on a cursor inside
    the text they take the character there when it is in the class, moving
    by one, and return [undefined] when it is not; outside the text (before
    0, at the end or beyond) they return [undefined]. *)
Theorem character_classes {E : Type} :
  takes_class whitespaceRegex (@whitespaceChar E) /\
  takes_class numericRegex (@numericChar E) /\
  takes_class alphaRegex (@alphaChar E).
Proof.
  repeat split;
    (eapply takes_class_ext; [| apply filter_char_takes_class]);
    intro a; apply js_match_one.
Qed.

Lemma character_classes_witness :
  @numericChar string {| code := "a7"; index := 1 |} =
    Some (Success {| code := "a7"; index := 2 |}
                  {| src_code := "a7"; start := 1; end_ := 2 |} "7").
Proof.
  apply (proj1 (proj1 (proj2 (@character_classes string))
                  {| code := "a7"; index := 1 |}) "7"%char).
  - simpl. lia.
  - reflexivity.
Defined.

(** ** How the transformations compose *)

Section Composition.

Context {P E : Type}.
Variable p : Parser P E.
Variable c : ParseInput.

(** X3. [map] over [map] is one [map] with the functions composed (the span
    handed to both is the one of the parser), and [map] with the function
    that returns its value is the parser itself. *)
Theorem map_map {M N : Type} (f : P -> ParseSource -> M) (g : M -> ParseSource -> N) :
  map (map p f) g c = map p (fun v s => g (f v s) s) c /\
  map p (fun v _ => v) c = p c.
Proof.
  unfold map. destruct (p c) as [[n s v | a e |] |]; split; reflexivity.
Qed.

(** X4. [filter] over [filter] is one [filter] with both predicates, the
    inner one tested first. *)
Theorem filter_filter (pred1 pred2 : P -> bool) :
  filter (filter p pred1) pred2 c = filter p (fun v => pred1 v && pred2 v) c.
Proof.
  unfold filter. destruct (p c) as [[n s v | a e |] |]; try reflexivity.
  destruct (pred1 v); simpl; [destruct (pred2 v) |]; reflexivity.
Qed.

End Composition.

(** X5. [required] and [optional] never return [undefined], so each makes
    a [required] or an [optional] put around it do nothing. *)
Theorem required_optional_absorb {V E : Type} `{HasUndefined V} (p : Parser V E)
    (f g : ParseInput -> E) (c : ParseInput) :
  required p f c <> Some Undefined /\
  optional p c <> Some Undefined /\
  required (required p f) g c = required p f c /\
  optional (required p f) c = required p f c /\
  required (optional p) f c = optional p c /\
  optional (optional p) c = optional p c.
Proof.
  unfold required, optional, nothing.
  destruct (p c) as [[n s v | a e |] |]; repeat split; discriminate.
Qed.

(** ** How choice and sequencing compose *)

Section Flattening.

Context {P E : Type}.

(** X6. A [oneOf] among the alternatives of a [oneOf] can be flattened: the
    alternatives [ps] followed by the alternatives [qs] give the result of
    [oneOf ps] unless it is [undefined], and then the result of [oneOf qs]
    on the same cursor. *)
Theorem oneOf_append (ps qs : list (Parser P E)) (c : ParseInput) :
  oneOf (ps ++ qs) c = oneOf [oneOf ps; oneOf qs] c /\
  oneOf (ps ++ qs) c =
    match oneOf ps c with
    | Some Undefined => oneOf qs c
    | r => r
    end.
Proof.
  assert (Hflat : oneOf (ps ++ qs) c =
                    match oneOf ps c with
                    | Some Undefined => oneOf qs c
                    | r => r
                    end).
  { induction ps as [| p ps IH]; simpl.
    - reflexivity.
    - destruct (p c) as [[n s v | a e |] |]; try reflexivity. exact IH. }
  split; [| exact Hflat].
  rewrite Hflat. simpl.
  destruct (oneOf ps c) as [[n s v | a e |] |]; try reflexivity.
  destruct (oneOf qs c) as [[n s v | a e |] |]; reflexivity.
Qed.

(** The loop of [tuple] started with items already collected, against the
    loop started with the rest of them. *)
Lemma tuple_loop_items (qs : list (Parser P E)) (input input' : ParseInput) :
  forall n items acc,
    tuple_loop qs input n (items ++ acc) =
      match tuple_loop qs input' n acc with
      | Some (Success n' _ ws) => Some (Success n' (span input n') (items ++ ws))
      | r => r
      end.
Proof.
  induction qs as [| q qs IH]; intros n items acc; simpl.
  - reflexivity.
  - destruct (q n) as [[n1 s1 v | a e |] |]; try reflexivity.
    rewrite <- app_assoc. apply IH.
Qed.

Lemma tuple_loop_append (ps qs : list (Parser P E)) (input : ParseInput) :
  forall n items,
    tuple_loop (ps ++ qs) input n items =
      match tuple_loop ps input n items with
      | Some (Success n' _ vs) => tuple_loop qs input n' vs
      | r => r
      end.
Proof.
  induction ps as [| p ps IH]; intros n items; simpl.
  - reflexivity.
  - destruct (p n) as [[n1 s1 v | a e |] |]; try reflexivity. apply IH.
Qed.

(** X7. A [tuple] of the pieces [ps] followed by the pieces [qs] runs
    [tuple ps], and on its success [tuple qs] from the cursor it left: the
    values are those of both, the span runs from the first cursor to the
    last; what [tuple ps] or [tuple qs] returns otherwise is returned. *)
Theorem tuple_append (ps qs : list (Parser P E)) (c : ParseInput) :
  tuple (ps ++ qs) c =
    match tuple ps c with
    | Some (Success n _ vs) =>
        match tuple qs n with
        | Some (Success n' _ ws) =>
            Some (Success n' {| src_code := code c; start := index c;
                                end_ := index n' |} (vs ++ ws))
        | r => r
        end
    | r => r
    end.
Proof.
  unfold tuple. rewrite tuple_loop_append.
  destruct (tuple_loop ps c c []) as [[n s vs | a e |] |]; try reflexivity.
  rewrite <- (app_nil_r vs) at 1.
  apply (tuple_loop_items qs c n n vs []).
Qed.

End Flattening.

(** ** The loop of [take0] *)

Lemma regex_takes_class {E : Type} (cls : ascii -> bool) :
  takes_class cls (filter (@char E) (js_match cls)).
Proof.
  eapply takes_class_ext; [| apply filter_char_takes_class].
  intro a. apply js_match_one.
Qed.

Section TakeLoop.

Context {E : Type}.
Variable charParser : Parser string E.
Variable input : ParseInput.

(** A success of the loop of [take0] is reached through matches of the
    character parser and ends on its [undefined]. *)
Lemma take0_loop_success (fuel : nat) :
  forall k nextInput res n s out,
    take0_reaches charParser input k nextInput res ->
    take0_loop fuel charParser input nextInput res = Some (Success n s out) ->
    exists k', (k' < k + fuel)%nat /\
               take0_reaches charParser input k' n out /\
               charParser n = Some Undefined /\ s = span input n.
Proof.
  induction fuel as [| fuel IH]; intros k nextInput res n s out Hreach Hrun;
    simpl in Hrun; [discriminate |].
  destruct (charParser nextInput) as [[i s1 v | a e |] |] eqn:Hchar;
    try discriminate.
  - destruct (IH (S k) i (res ++ v)%string n s out) as (k' & Hk & Hr & Hu & Hs).
    + econstructor; eassumption.
    + exact Hrun.
    + exists k'. repeat split; try assumption. lia.
  - injection Hrun as <- <- <-. exists k. repeat split; try assumption. lia.
Qed.

Lemma take0_loop_defined (fuel : nat) :
  forall nextInput res,
    take0_loop fuel charParser input nextInput res <> Some Undefined.
Proof.
  induction fuel as [| fuel IH]; intros nextInput res; simpl; [discriminate |].
  destruct (charParser nextInput) as [[i s1 v | a e |] |]; try discriminate.
  apply IH.
Qed.

(** X8. [take0] returns a success exactly when the character parser matches
    some number [k] of times in a row, below the bound, and then returns
    [undefined]: the cursor of the success is the one where it returned
    [undefined], the value the characters matched, in order, and the span
    runs from the first cursor to that one.  With no match at all the value
    is empty, the cursor the first one, and [take1] returns [undefined];
    [take0] never returns [undefined]. *)
Theorem take0_spec (fuel : nat) :
  (forall n s res,
      take0 fuel charParser input = Some (Success n s res) <->
      exists k, (k < fuel)%nat /\ take0_reaches charParser input k n res /\
                charParser n = Some Undefined /\
                s = {| src_code := code input; start := index input;
                       end_ := index n |}) /\
  (charParser input = Some Undefined ->
     take0 (S fuel) charParser input =
       Some (Success input {| src_code := code input; start := index input;
                              end_ := index input |} "") /\
     take1 (S fuel) charParser input = Some Undefined) /\
  take0 fuel charParser input <> Some Undefined.
Proof.
  split; [| split].
  - intros n s res. split.
    + intro Hrun.
      destruct (take0_loop_success fuel 0 input "" n s res (take0_start _ _) Hrun)
        as (k & Hk & Hr & Hu & Hs).
      exists k. repeat split; assumption.
    + intros (k & Hk & Hreach & Hundef & ->).
      replace fuel with (k + S (fuel - S k))%nat by lia.
      rewrite (take0_reaches_loop _ _ _ _ _ Hreach). simpl. rewrite Hundef.
      reflexivity.
  - intro Hundef.
    assert (Hrun : take0 (S fuel) charParser input =
                     Some (Success input (span input input) ""))
      by (unfold take0; simpl; rewrite Hundef; reflexivity).
    split; [exact Hrun |]. unfold take1, filter. rewrite Hrun. reflexivity.
  - apply take0_loop_defined.
Qed.

End TakeLoop.

Lemma take0_spec_witness :
  take0 3 (@numericChar string) (input "x") =
    Some (Success (input "x") {| src_code := "x"; start := 0; end_ := 0 |} "") /\
  take1 3 (@numericChar string) (input "x") = Some Undefined.
Proof.
  apply (proj1 (proj2 (take0_spec (@numericChar string) (input "x") 2))).
  reflexivity.
Defined.

Lemma take_while_drop (cls : ascii -> bool) (s : string) :
  take_while cls (drop (String.length (take_while cls s)) s) = "".
Proof.
  induction s as [| a s IH]; simpl; [reflexivity |].
  destruct (cls a) eqn:Ha; simpl; [exact IH | rewrite Ha; reflexivity].
Qed.

Section TakeClass.

Context {E : Type}.
Variable cls : ascii -> bool.
Variable p : Parser string E.
Hypothesis p_class : takes_class cls p.

(** Over a one-character parser of a class, the loop of [take0] takes the
    longest run of characters of the class. *)
Lemma take0_loop_class (input : ParseInput) (fuel : nat) :
  forall nextInput res,
    0 <= index nextInput ->
    (String.length (take_while cls (remaining nextInput)) < fuel)%nat ->
    take0_loop fuel p input nextInput res =
      Some (Success
              {| code := code nextInput;
                 index := index nextInput
                          + str_length (take_while cls (remaining nextInput)) |}
              {| src_code := code input; start := index input;
                 end_ := index nextInput
                         + str_length (take_while cls (remaining nextInput)) |}
              (res ++ take_while cls (remaining nextInput))%string).
Proof.
  induction fuel as [| fuel IH]; intros nextInput res Hpos Hfuel; [lia |].
  destruct (p_class nextInput) as [Hin Hout].
  pose proof (drop_get (Z.to_nat (index nextInput)) (code nextInput)) as Hd.
  unfold remaining, js_substring in *.
  assert (Hstop : p nextInput = Some Undefined ->
            take0_loop (S fuel) p input nextInput res =
              Some (Success {| code := code nextInput; index := index nextInput + 0 |}
                            {| src_code := code input; start := index input;
                               end_ := index nextInput + 0 |} (res ++ "")%string)).
  { intro Hp. cbn [take0_loop]. rewrite Hp, append_empty_r, Z.add_0_r.
    destruct nextInput; reflexivity. }
  destruct (drop (Z.to_nat (index nextInput)) (code nextInput)) as [| a rest] eqn:Hdrop.
  - apply Hstop. apply Hout. right. unfold str_length. lia.
  - destruct Hd as (Hget & Hlt & _ & Hrest).
    specialize (Hin a Hpos Hget). cbn [take_while] in Hfuel |- *.
    destruct (cls a) eqn:Ha.
    + assert (Hnext : drop (Z.to_nat (index nextInput + 1)) (code nextInput) = rest).
      { replace (Z.to_nat (index nextInput + 1)) with (S (Z.to_nat (index nextInput)))
          by lia.
        exact Hrest. }
      cbn [take0_loop]. rewrite Hin.
      rewrite (IH {| code := code nextInput; index := index nextInput + 1 |});
        cbn [code index]; rewrite ?Hnext; try lia.
      * rewrite append_assoc. unfold str_length. cbn [String.length append].
        replace (index nextInput + 1 + Z.of_nat (String.length (take_while cls rest)))
          with (index nextInput + Z.of_nat (S (String.length (take_while cls rest))))
          by lia.
        reflexivity.
      * cbn [String.length] in Hfuel. lia.
    + exact (Hstop Hin).
Qed.

End TakeClass.

Lemma remaining_after (c : ParseInput) (n : nat) :
  0 <= index c ->
  remaining {| code := code c; index := index c + Z.of_nat n |} = drop n (remaining c).
Proof.
  intro Hpos. unfold remaining, js_substring. cbn [code index].
  replace (Z.to_nat (index c + Z.of_nat n)) with (Z.to_nat (index c) + n)%nat by lia.
  apply drop_plus.
Qed.

(** X9. Over a one-character parser of a class, from a cursor at 0 or
    later and with a bound above the length of the run, [take0] takes the
    longest run of characters of the class that the text left at the cursor
    starts with: the value is that run, the cursor moves by its length, and
    the text left there starts with no character of the class.  [take1]
    returns the same unless the run is empty, and then [undefined]. *)
Theorem take0_class {E : Type} (cls : ascii -> bool) (p : Parser string E)
    (c : ParseInput) (fuel : nat) :
  takes_class cls p ->
  0 <= index c ->
  (String.length (take_while cls (remaining c)) < fuel)%nat ->
  take0 fuel p c =
    Some (Success
            {| code := code c;
               index := index c + str_length (take_while cls (remaining c)) |}
            {| src_code := code c; start := index c;
               end_ := index c + str_length (take_while cls (remaining c)) |}
            (take_while cls (remaining c))) /\
  take_while cls
    (remaining {| code := code c;
                  index := index c + str_length (take_while cls (remaining c)) |}) = "" /\
  take1 fuel p c =
    if (0 <? String.length (take_while cls (remaining c)))%nat
    then take0 fuel p c else Some Undefined.
Proof.
  intros Hp Hpos Hfuel.
  assert (Hrun := take0_loop_class cls p Hp c fuel c "" Hpos Hfuel).
  fold (take0 fuel p c) in Hrun. cbn [append] in Hrun.
  split; [exact Hrun | split].
  - unfold str_length. rewrite remaining_after by exact Hpos.
    apply take_while_drop.
  - unfold take1, filter. rewrite Hrun.
    destruct (0 <? String.length (take_while cls (remaining c)))%nat; reflexivity.
Qed.

Lemma take0_class_witness :
  take0 4 (@numericChar string) {| code := "a12b"; index := 1 |} =
    Some (Success {| code := "a12b"; index := 3 |}
                  {| src_code := "a12b"; start := 1; end_ := 3 |} "12").
Proof.
  refine (proj1 (take0_class numericRegex (@numericChar string)
                   {| code := "a12b"; index := 1 |} 4 _ _ _)).
  - apply regex_takes_class.
  - simpl. lia.
  - simpl. lia.
Defined.

(** X10. From a cursor at 0 or later and with a bound above the number of
    whitespace characters the text left at the cursor starts with,
    [whitespace] succeeds: it moves the cursor over exactly those characters
    and its value is [undefined]; the text left there starts with no
    whitespace character. *)
Theorem whitespace_skips {V E : Type} `{HasUndefined V} (c : ParseInput) (fuel : nat) :
  0 <= index c ->
  (String.length (take_while whitespaceRegex (remaining c)) < fuel)%nat ->
  @whitespace V E _ fuel c =
    Some (Success
            {| code := code c;
               index := index c + str_length (take_while whitespaceRegex (remaining c)) |}
            {| src_code := code c; start := index c;
               end_ := index c + str_length (take_while whitespaceRegex (remaining c)) |}
            js_undefined) /\
  take_while whitespaceRegex
    (remaining
       {| code := code c;
          index := index c + str_length (take_while whitespaceRegex (remaining c)) |})
    = "".
Proof.
  intros Hpos Hfuel. split.
  - unfold whitespace, map, take0, whitespaceChar.
    rewrite (take0_loop_class whitespaceRegex _ (regex_takes_class _) c fuel c ""
               Hpos Hfuel).
    reflexivity.
  - unfold str_length. rewrite remaining_after by exact Hpos.
    apply take_while_drop.
Qed.

Lemma whitespace_skips_witness :
  @whitespace unit string _ 3 {| code := "a  b"; index := 1 |} =
    Some (Success {| code := "a  b"; index := 3 |}
                  {| src_code := "a  b"; start := 1; end_ := 3 |} tt).
Proof.
  refine (proj1 (@whitespace_skips unit string _ {| code := "a  b"; index := 1 |} 3 _ _)).
  - simpl. lia.
  - simpl. lia.
Defined.

(** ** Where errors come from *)

Section ErrorsOnly.

Context {E : Type}.
Variable ok : E -> Prop.

Lemma errors_only_exact (str : string) : errors_only ok (@exact E str).
Proof.
  intros c a e. unfold exact.
  destruct (startsWith (js_substring (code c) (index c)) str); discriminate.
Qed.

Lemma errors_only_char : errors_only ok (@char E).
Proof.
  intros c a e. unfold char.
  destruct ((0 <=? index c) && (index c <? str_length (code c))); discriminate.
Qed.

Lemma errors_only_nothing {V : Type} `{HasUndefined V} : errors_only ok (@nothing V E _).
Proof. intros c a e. discriminate. Qed.

Lemma errors_only_map {P M : Type} (p : Parser P E) (fn : P -> ParseSource -> M) :
  errors_only ok p -> errors_only ok (map p fn).
Proof.
  intros Hp c a e. unfold map.
  destruct (p c) as [[n s v | a' e' |] |] eqn:Hc; try discriminate.
  intro Heq. injection Heq as -> ->. exact (Hp _ _ _ Hc).
Qed.

Lemma errors_only_filter {P : Type} (p : Parser P E) (pred : P -> bool) :
  errors_only ok p -> errors_only ok (filter p pred).
Proof.
  intros Hp c a e. unfold filter.
  destruct (p c) as [[n s v | a' e' |] |] eqn:Hc; try discriminate.
  - destruct (negb (pred v)); discriminate.
  - intro Heq. injection Heq as -> ->. exact (Hp _ _ _ Hc).
Qed.

Lemma errors_only_optional {V : Type} `{HasUndefined V} (p : Parser V E) :
  errors_only ok p -> errors_only ok (optional p).
Proof.
  intros Hp c a e. unfold optional, nothing.
  destruct (p c) as [[n s v | a' e' |] |] eqn:Hc; try discriminate.
  intro Heq. injection Heq as -> ->. exact (Hp _ _ _ Hc).
Qed.

Lemma errors_only_required {P : Type} (p : Parser P E) (f : ParseInput -> E) :
  errors_only ok p -> (forall c, ok (f c)) -> errors_only ok (required p f).
Proof.
  intros Hp Hf c a e. unfold required.
  destruct (p c) as [[n s v | a' e' |] |] eqn:Hc; try discriminate;
    intro Heq; injection Heq as <- <-; [exact (Hp _ _ _ Hc) | apply Hf].
Qed.

Lemma errors_only_oneOf {P : Type} (ps : list (Parser P E)) :
  Forall (errors_only ok) ps -> errors_only ok (oneOf ps).
Proof.
  induction 1 as [| p ps Hp _ IH]; intros c a e; simpl; [discriminate |].
  destruct (p c) as [[n s v | a' e' |] |] eqn:Hc; try discriminate.
  - intro Heq. injection Heq as -> ->. exact (Hp _ _ _ Hc).
  - apply IH.
Qed.

Lemma errors_only_tuple {P : Type} (ps : list (Parser P E)) :
  Forall (errors_only ok) ps -> errors_only ok (tuple ps).
Proof.
  intros Hps c a e. unfold tuple. generalize c at 2. generalize (@nil P).
  induction Hps as [| p ps Hp _ IH]; intros items n; simpl; [discriminate |].
  destruct (p n) as [[n1 s v | a' e' |] |] eqn:Hc; try discriminate.
  - apply IH.
  - intro Heq. injection Heq as -> ->. exact (Hp _ _ _ Hc).
Qed.

Lemma errors_only_manySep0 {P Q : Type} (fuel : nat) (item : Parser P E)
    (sep : option (Parser Q E)) :
  errors_only ok item ->
  (forall sp, sep = Some sp -> errors_only ok sp) ->
  errors_only ok (manySep0 fuel item sep).
Proof.
  intros Hitem Hsep c a e. unfold manySep0. generalize c at 2. generalize (@nil P).
  induction fuel as [| fuel IH]; intros items n; [discriminate |].
  rewrite manySep0_loop_S. cbv zeta.
  destruct (if (0 <? length items)%nat then sep else None) as [sp |] eqn:Hsp.
  - assert (Hsome : sep = Some sp)
      by (destruct (0 <? length items)%nat; [exact Hsp | discriminate]).
    destruct (sp n) as [[n1 s w | a' e' |] |] eqn:Hs; try discriminate.
    + destruct (item n1) as [[n2 s2 v | a' e' |] |] eqn:Hi; try discriminate.
      * apply IH.
      * intro Heq. injection Heq as -> ->. exact (Hitem _ _ _ Hi).
    + intro Heq. injection Heq as -> ->. exact (Hsep _ Hsome _ _ _ Hs).
  - destruct (item n) as [[n2 s2 v | a' e' |] |] eqn:Hi; try discriminate.
    + apply IH.
    + intro Heq. injection Heq as -> ->. exact (Hitem _ _ _ Hi).
Qed.

Lemma errors_only_take0 (fuel : nat) (charParser : Parser string E) :
  errors_only ok charParser -> errors_only ok (take0 fuel charParser).
Proof.
  intros Hchar c a e. unfold take0. generalize c at 2. generalize "".
  induction fuel as [| fuel IH]; intros res n; simpl; [discriminate |].
  destruct (charParser n) as [[n1 s v | a' e' |] |] eqn:Hc; try discriminate.
  - apply IH.
  - intro Heq. injection Heq as -> ->. exact (Hchar _ _ _ Hc).
Qed.

Lemma errors_only_whitespace {V : Type} `{HasUndefined V} (fuel : nat) :
  errors_only ok (@whitespace V E _ fuel).
Proof.
  apply errors_only_map, errors_only_take0, errors_only_filter, errors_only_char.
Qed.

End ErrorsOnly.

(** X11. The error payloads of a combinator are those of its sub-parsers
    and, for [required], those its factory makes: whatever the set [ok] of
    payloads, [exact], [char], [nothing] and [whitespace] return no error
    outside it, [map], [filter], [optional], [oneOf], [tuple], the [many]
    and the [take] combinators return none when their sub-parsers return
    none, and so does [required] when its factory makes none.  With the
    empty set: a parser built without [required] returns no error. *)
Theorem errors_from_required {P Q M E : Type} `{HasUndefined P} (ok : E -> Prop) :
  (forall str, errors_only ok (@exact E str)) /\
  errors_only ok (@char E) /\
  errors_only ok (@nothing P E _) /\
  (forall fuel, errors_only ok (@whitespace P E _ fuel)) /\
  (forall p : Parser P E,
      errors_only ok p ->
      (forall fn : P -> ParseSource -> M, errors_only ok (map p fn)) /\
      (forall pred, errors_only ok (filter p pred)) /\
      errors_only ok (optional p) /\
      (forall f, (forall c, ok (f c)) -> errors_only ok (required p f))) /\
  (forall ps : list (Parser P E),
      Forall (errors_only ok) ps ->
      errors_only ok (oneOf ps) /\ errors_only ok (tuple ps)) /\
  (forall fuel (item : Parser P E) (sep : option (Parser Q E)),
      errors_only ok item ->
      (forall sp, sep = Some sp -> errors_only ok sp) ->
      errors_only ok (manySep0 fuel item sep) /\
      errors_only ok (manySep1 fuel item sep) /\
      errors_only ok (many0 fuel item) /\
      errors_only ok (many1 fuel item)) /\
  (forall fuel (charParser : Parser string E),
      errors_only ok charParser ->
      errors_only ok (take0 fuel charParser) /\
      errors_only ok (take1 fuel charParser)).
Proof.
  split; [intro str; apply errors_only_exact |].
  split; [apply errors_only_char |].
  split; [apply errors_only_nothing |].
  split; [intro fuel; apply errors_only_whitespace |].
  split; [| split; [| split]].
  - intros p Hp. repeat split.
    + intro fn. apply errors_only_map, Hp.
    + intro pred. apply errors_only_filter, Hp.
    + apply errors_only_optional, Hp.
    + intros f Hf. apply errors_only_required; assumption.
  - intros ps Hps. split; [apply errors_only_oneOf | apply errors_only_tuple];
      exact Hps.
  - intros fuel item sep Hitem Hsep.
    assert (Hnone : forall sp : Parser unit E, None = Some sp -> errors_only ok sp)
      by (intros sp Hsp; discriminate).
    repeat split.
    + apply errors_only_manySep0; assumption.
    + apply errors_only_filter, errors_only_manySep0; assumption.
    + apply errors_only_manySep0; assumption.
    + apply errors_only_filter, errors_only_manySep0; assumption.
  - intros fuel charParser Hchar. split.
    + apply errors_only_take0, Hchar.
    + apply errors_only_filter, errors_only_take0, Hchar.
Qed.

(** ** Cursors stay inside the text *)

Section Tidy.

Context {E : Type}.

Lemma tidy_exact (str : string) : tidy (@exact E str).
Proof.
  intros c [Hlo Hhi]. split; [| intros a e Herr; exfalso;
                                 exact (errors_only_exact (fun _ => False) _ _ _ _ Herr)].
  intros c' s v. unfold exact.
  destruct (startsWith (js_substring (code c) (index c)) str) eqn:Hs; [| discriminate].
  intro Heq. injection Heq as <- <- _.
  apply startsWith_inv in Hs. destruct Hs as [rest Hrest].
  pose proof (drop_length (Z.to_nat (index c)) (code c)) as Hlen.
  unfold js_substring in Hrest. rewrite Hrest, length_append in Hlen.
  unfold valid, span, str_length in *. cbn [code index].
  repeat split; try reflexivity; lia.
Qed.

Lemma tidy_char : tidy (@char E).
Proof.
  intros c [Hlo Hhi]. split; [| intros a e Herr; exfalso;
                                 exact (errors_only_char (fun _ => False) _ _ _ Herr)].
  intros c' s v. unfold char.
  destruct ((0 <=? index c) && (index c <? str_length (code c))) eqn:Hin;
    [| discriminate].
  intro Heq. injection Heq as <- <- _.
  unfold valid, span. cbn [code index]. repeat split; try reflexivity; lia.
Qed.

Lemma tidy_nothing {V : Type} `{HasUndefined V} : tidy (@nothing V E _).
Proof.
  intros c Hc. split; [| discriminate].
  intros c' s v Heq. injection Heq as <- <- _.
  repeat split; try apply Hc; try reflexivity; lia.
Qed.

Lemma tidy_map {P M : Type} (p : Parser P E) (fn : P -> ParseSource -> M) :
  tidy p -> tidy (map p fn).
Proof.
  intros Hp c Hc. destruct (Hp c Hc) as [Hok Herr]. unfold map.
  destruct (p c) as [[n s v | a e |] |]; split; try discriminate.
  - intros c' s' v' Heq. injection Heq as <- <- _. eapply Hok. reflexivity.
  - intros a' e' Heq. injection Heq as <- <-. eapply Herr. reflexivity.
Qed.

Lemma tidy_filter {P : Type} (p : Parser P E) (pred : P -> bool) :
  tidy p -> tidy (filter p pred).
Proof.
  intros Hp c Hc. destruct (Hp c Hc) as [Hok Herr]. unfold filter.
  destruct (p c) as [[n s v | a e |] |]; split; try discriminate.
  - destruct (negb (pred v)); [discriminate |].
    intros c' s' v' Heq. injection Heq as <- <- _. eapply Hok. reflexivity.
  - destruct (negb (pred v)); discriminate.
  - intros a' e' Heq. injection Heq as <- <-. eapply Herr. reflexivity.
Qed.

Lemma tidy_required {P : Type} (p : Parser P E) (f : ParseInput -> E) :
  tidy p -> tidy (required p f).
Proof.
  intros Hp c Hc. destruct (Hp c Hc) as [Hok Herr]. unfold required.
  destruct (p c) as [[n s v | a e |] |]; split; try discriminate.
  - intros c' s' v' Heq. injection Heq as <- <- _. eapply Hok. reflexivity.
  - intros a' e' Heq. injection Heq as <- <-. eapply Herr. reflexivity.
  - intros a' e' Heq. injection Heq as <- _. repeat split; try apply Hc; lia.
Qed.

Lemma tidy_optional {V : Type} `{HasUndefined V} (p : Parser V E) :
  tidy p -> tidy (optional p).
Proof.
  intros Hp c Hc. destruct (Hp c Hc) as [Hok Herr]. unfold optional.
  destruct (p c) as [[n s v | a e |] |]; try (split; discriminate).
  - split; [| discriminate].
    intros c' s' v' Heq. injection Heq as <- <- _. eapply Hok. reflexivity.
  - split; [discriminate |].
    intros a' e' Heq. injection Heq as <- <-. eapply Herr. reflexivity.
  - apply tidy_nothing. exact Hc.
Qed.

Lemma tidy_oneOf {P : Type} (ps : list (Parser P E)) :
  Forall tidy ps -> tidy (oneOf ps).
Proof.
  induction 1 as [| p ps Hp _ IH]; intros c Hc; simpl.
  - split; discriminate.
  - destruct (Hp c Hc) as [Hok Herr].
    destruct (p c) as [[n s v | a e |] |]; try (split; discriminate).
    + split; [| discriminate].
      intros c' s' v' Heq. injection Heq as <- <- _. eapply Hok. reflexivity.
    + split; [discriminate |].
      intros a' e' Heq. injection Heq as <- <-. eapply Herr. reflexivity.
    + apply IH. exact Hc.
Qed.

End Tidy.

Section TidyLoops.

Context {E : Type}.

(** What being tidy tells of one call from a cursor that the loop has
    reached. *)
Lemma tidy_step {P : Type} (p : Parser P E) (input n : ParseInput) :
  tidy p -> valid n -> code n = code input -> index input <= index n ->
  (forall c' s v, p n = Some (Success c' s v) ->
     valid c' /\ code c' = code input /\ index input <= index c') /\
  (forall a e, p n = Some (Error a e) ->
     code a = code input /\ index input <= index a /\ valid a).
Proof.
  intros Hp Hn Hcode Hidx. destruct (Hp n Hn) as [Hok Herr]. split.
  - intros c' s v Hc. destruct (Hok _ _ _ Hc) as (Hc1 & Hc2 & Hc3 & _).
    repeat split; try apply Hc3; [congruence | lia].
  - intros a e Hc. destruct (Herr _ _ Hc) as (Hc1 & Hc2 & Hc3).
    repeat split; try apply Hc3; [congruence | lia].
Qed.

Lemma tidy_tuple {P : Type} (ps : list (Parser P E)) :
  Forall tidy ps -> tidy (tuple ps).
Proof.
  intros Hps c Hc. unfold tuple.
  assert (Hloop : forall n items,
             valid n -> code n = code c -> index c <= index n ->
             (forall c' s v, tuple_loop ps c n items = Some (Success c' s v) ->
                code c' = code c /\ index c <= index c' /\ valid c' /\ s = span c c') /\
             (forall a e, tuple_loop ps c n items = Some (Error a e) ->
                code a = code c /\ index c <= index a /\ valid a)).
  { induction Hps as [| p ps Hp _ IH]; intros n items Hn Hcode Hidx; simpl.
    - split; [| discriminate].
      intros c' s v Heq. injection Heq as <- <- _. repeat split; try apply Hn; auto.
    - destruct (tidy_step p c n Hp Hn Hcode Hidx) as [Hok Herr].
      destruct (p n) as [[n1 s1 v1 | a1 e1 |] |]; try (split; discriminate).
      + destruct (Hok _ _ _ eq_refl) as (H1 & H2 & H3). apply IH; assumption.
      + split; [discriminate |].
        intros a e Heq. injection Heq as <- <-. exact (Herr _ _ eq_refl). }
  apply Hloop; [exact Hc | reflexivity | lia].
Qed.

Lemma tidy_manySep0 {P Q : Type} (fuel : nat) (item : Parser P E)
    (sep : option (Parser Q E)) :
  tidy item -> (forall sp, sep = Some sp -> tidy sp) ->
  tidy (manySep0 fuel item sep).
Proof.
  intros Hitem Hsep c Hc. unfold manySep0.
  assert (Hloop : forall n items,
             valid n -> code n = code c -> index c <= index n ->
             (forall c' s v, manySep0_loop fuel item sep c n items = Some (Success c' s v) ->
                code c' = code c /\ index c <= index c' /\ valid c' /\ s = span c c') /\
             (forall a e, manySep0_loop fuel item sep c n items = Some (Error a e) ->
                code a = code c /\ index c <= index a /\ valid a)).
  { induction fuel as [| fuel' IH]; intros n items Hn Hcode Hidx;
      [split; discriminate |].
    rewrite manySep0_loop_S. cbv zeta.
    assert (Hitems : forall m,
               valid m -> code m = code c -> index c <= index m ->
               (forall c' s v,
                   match item m with
                   | None => None
                   | Some Undefined => Some (Success m (span c m) items)
                   | Some (Error input' err) => Some (Error input' err)
                   | Some (Success input' _ parsed) =>
                       manySep0_loop fuel' item sep c input' (items ++ [parsed])
                   end = Some (Success c' s v) ->
                   code c' = code c /\ index c <= index c' /\ valid c' /\ s = span c c') /\
               (forall a e,
                   match item m with
                   | None => None
                   | Some Undefined => Some (Success m (span c m) items)
                   | Some (Error input' err) => Some (Error input' err)
                   | Some (Success input' _ parsed) =>
                       manySep0_loop fuel' item sep c input' (items ++ [parsed])
                   end = Some (Error a e) ->
                   code a = code c /\ index c <= index a /\ valid a)).
    { intros m Hm Hmcode Hmidx.
      destruct (tidy_step item c m Hitem Hm Hmcode Hmidx) as [Hok Herr].
      destruct (item m) as [[n1 s1 v1 | a1 e1 |] |]; try (split; discriminate).
      - destruct (Hok _ _ _ eq_refl) as (H1 & H2 & H3). apply IH; assumption.
      - split; [discriminate |].
        intros a e Heq. injection Heq as <- <-. exact (Herr _ _ eq_refl).
      - split; [| discriminate].
        intros c' s v Heq. injection Heq as <- <- _. repeat split; try apply Hm; auto. }
    destruct (if (0 <? length items)%nat then sep else None) as [sp |] eqn:Hsp.
    - assert (Hsome : sep = Some sp)
        by (destruct (0 <? length items)%nat; [exact Hsp | discriminate]).
      destruct (tidy_step sp c n (Hsep _ Hsome) Hn Hcode Hidx) as [Hok Herr].
      destruct (sp n) as [[n1 s1 w | a1 e1 |] |]; try (split; discriminate).
      + destruct (Hok _ _ _ eq_refl) as (H1 & H2 & H3). apply Hitems; assumption.
      + split; [discriminate |].
        intros a e Heq. injection Heq as <- <-. exact (Herr _ _ eq_refl).
      + split; [| discriminate].
        intros c' s v Heq. injection Heq as <- <- _. repeat split; try apply Hn; auto.
    - apply Hitems; assumption. }
  apply Hloop; [exact Hc | reflexivity | lia].
Qed.

Lemma tidy_take0 (fuel : nat) (charParser : Parser string E) :
  tidy charParser -> tidy (take0 fuel charParser).
Proof.
  intros Hchar c Hc. unfold take0.
  assert (Hloop : forall n res,
             valid n -> code n = code c -> index c <= index n ->
             (forall c' s v, take0_loop fuel charParser c n res = Some (Success c' s v) ->
                code c' = code c /\ index c <= index c' /\ valid c' /\ s = span c c') /\
             (forall a e, take0_loop fuel charParser c n res = Some (Error a e) ->
                code a = code c /\ index c <= index a /\ valid a)).
  { induction fuel as [| fuel' IH]; intros n res Hn Hcode Hidx; simpl;
      [split; discriminate |].
    destruct (tidy_step charParser c n Hchar Hn Hcode Hidx) as [Hok Herr].
    destruct (charParser n) as [[n1 s1 v1 | a1 e1 |] |]; try (split; discriminate).
    - destruct (Hok _ _ _ eq_refl) as (H1 & H2 & H3). apply IH; assumption.
    - split; [discriminate |].
      intros a e Heq. injection Heq as <- <-. exact (Herr _ _ eq_refl).
    - split; [| discriminate].
      intros c' s v Heq. injection Heq as <- <- _. repeat split; try apply Hn; auto. }
  apply Hloop; [exact Hc | reflexivity | lia].
Qed.

Lemma tidy_whitespace {V : Type} `{HasUndefined V} (fuel : nat) :
  tidy (@whitespace V E _ fuel).
Proof. apply tidy_map, tidy_take0, tidy_filter, tidy_char. Qed.

End TidyLoops.

(** X12. Cursors stay inside the text.  Given a cursor between 0 and the
    length of its text, [exact], [char], [nothing] and [whitespace] answer
    with a cursor on the same text, not before the one given and not beyond
    the end of the text, and the span of a success runs from the cursor
    given to the cursor left; every combinator keeps this when its
    sub-parsers have it, for its successes and for the cursor of its
    errors. *)
Theorem cursors_stay_inside {P Q M E : Type} `{HasUndefined P} :
  (forall str, tidy (@exact E str)) /\
  tidy (@char E) /\
  tidy (@nothing P E _) /\
  (forall fuel, tidy (@whitespace P E _ fuel)) /\
  (forall p : Parser P E,
      tidy p ->
      (forall fn : P -> ParseSource -> M, tidy (map p fn)) /\
      (forall pred, tidy (filter p pred)) /\
      (forall f, tidy (required p f)) /\
      tidy (optional p)) /\
  (forall ps : list (Parser P E),
      Forall tidy ps -> tidy (oneOf ps) /\ tidy (tuple ps)) /\
  (forall fuel (item : Parser P E) (sep : option (Parser Q E)),
      tidy item -> (forall sp, sep = Some sp -> tidy sp) ->
      tidy (manySep0 fuel item sep) /\ tidy (manySep1 fuel item sep) /\
      tidy (many0 fuel item) /\ tidy (many1 fuel item)) /\
  (forall fuel (charParser : Parser string E),
      tidy charParser ->
      tidy (take0 fuel charParser) /\ tidy (take1 fuel charParser)).
Proof.
  split; [intro str; apply tidy_exact |].
  split; [apply tidy_char |].
  split; [apply tidy_nothing |].
  split; [intro fuel; apply tidy_whitespace |].
  split; [| split; [| split]].
  - intros p Hp. split; [| split; [| split]].
    + intro fn. apply tidy_map, Hp.
    + intro pred. apply tidy_filter, Hp.
    + intro f. apply tidy_required, Hp.
    + apply tidy_optional, Hp.
  - intros ps Hps. split; [apply tidy_oneOf | apply tidy_tuple]; exact Hps.
  - intros fuel item sep Hitem Hsep.
    assert (Hnone : forall sp : Parser unit E, None = Some sp -> tidy sp)
      by (intros sp Hsp; discriminate).
    split; [| split; [| split]].
    + apply tidy_manySep0; assumption.
    + apply tidy_filter, tidy_manySep0; assumption.
    + apply tidy_manySep0; assumption.
    + apply tidy_filter, tidy_manySep0; assumption.
  - intros fuel charParser Hchar. split.
    + apply tidy_take0, Hchar.
    + apply tidy_filter, tidy_take0, Hchar.
Qed.

(** ** The JSON grammar as a whole *)

Ltac grammar_pieces :=
  unfold jsonDocument, array_of, object_of, commaWithWhitespace, string_, number,
    boolean, nil_, str, arr, take1, numericChar.

Ltac tidy_grammar :=
  repeat first
    [ assumption
    | apply Forall_nil | apply Forall_cons
    | apply tidy_exact | apply tidy_char | apply tidy_whitespace
    | apply tidy_map | apply tidy_filter | apply tidy_required | apply tidy_optional
    | apply tidy_oneOf | apply tidy_tuple | apply tidy_take0 | apply tidy_manySep0
    | (let sp := fresh "sp" in let Hsome := fresh "Hsome" in
       intros sp Hsome; injection Hsome as <-) ].

Ltac known_message :=
  let c := fresh "c" in
  intro c; unfold json_messages; simpl;
  repeat first [ left; reflexivity | right ].

Ltac errors_grammar :=
  repeat first
    [ assumption
    | apply Forall_nil | apply Forall_cons
    | apply errors_only_exact | apply errors_only_char | apply errors_only_whitespace
    | apply errors_only_map | apply errors_only_filter | apply errors_only_optional
    | apply errors_only_oneOf | apply errors_only_tuple | apply errors_only_take0
    | (apply errors_only_required; [| known_message])
    | apply errors_only_manySep0
    | (let sp := fresh "sp" in let Hsome := fresh "Hsome" in
       intros sp Hsome; injection Hsome as <-) ].

Section JsonGrammar.

Context {number_t : Type} (Number : string -> number_t).

Lemma jsonValue_tidy (fuel : nat) : tidy (jsonValue Number fuel).
Proof.
  induction fuel as [| fuel IH].
  - intros c Hc. split; discriminate.
  - intros c Hc. cbn [jsonValue].
    refine (tidy_oneOf _ _ c Hc). grammar_pieces. tidy_grammar.
Qed.

Lemma jsonValue_errors (fuel : nat) :
  errors_only (fun e => In e json_messages) (jsonValue Number fuel).
Proof.
  induction fuel as [| fuel IH].
  - intros c a e. discriminate.
  - intros c a e. cbn [jsonValue].
    refine (errors_only_oneOf (fun e => In e json_messages) _ _ c a e).
    grammar_pieces. errors_grammar.
Qed.

(** X13. Whatever the text and the bound: a success that [jsonDocument]
    returns on the text from its start has its cursor on the text, between 0
    and its length, and its span runs from 0 to that cursor; an error that it
    returns has its cursor on the text, between 0 and its length, and its
    payload is one of the six messages of the grammar.  [jsonValue] has the
    same two properties from every cursor inside a text.  A result need not
    be a success or an error: on the empty text [jsonDocument] returns
    [undefined]. *)
Theorem json_results (fuel : nat) (text : string) :
  (forall c' s v,
      jsonDocument Number fuel (input text) = Some (Success c' s v) ->
      code c' = text /\ 0 <= index c' <= str_length text /\
      s = {| src_code := text; start := 0; end_ := index c' |}) /\
  (forall a e,
      jsonDocument Number fuel (input text) = Some (Error a e) ->
      code a = text /\ 0 <= index a <= str_length text /\ In e json_messages) /\
  tidy (jsonValue Number fuel) /\
  errors_only (fun e => In e json_messages) (jsonValue Number fuel) /\
  ((2 <= fuel)%nat -> jsonDocument Number fuel (input "") = Some Undefined).
Proof.
  assert (Hvalid : valid (input text)).
  { unfold valid, input, str_length. simpl. lia. }
  assert (Htidy : tidy (jsonDocument Number fuel)).
  { pose proof (jsonValue_tidy fuel). grammar_pieces. tidy_grammar. }
  assert (Herrors : errors_only (fun e => In e json_messages) (jsonDocument Number fuel)).
  { pose proof (jsonValue_errors fuel). grammar_pieces. errors_grammar. }
  destruct (Htidy _ Hvalid) as [Hok Herr].
  split; [| split; [| split; [| split]]].
  - intros c' s v Hrun. destruct (Hok _ _ _ Hrun) as (Hcode & Hidx & Hin & Hspan).
    unfold valid in Hin. rewrite Hcode in Hin. simpl in *. subst s.
    repeat split; auto; lia.
  - intros a e Hrun. destruct (Herr _ _ Hrun) as (Hcode & Hidx & Hin).
    unfold valid in Hin. rewrite Hcode in Hin. simpl in *.
    repeat split; auto; try lia. exact (Herrors _ _ _ Hrun).
  - apply jsonValue_tidy.
  - apply jsonValue_errors.
  - clear. intro Hfuel. do 2 (destruct fuel as [| fuel]; [lia |]). clear Hfuel.
    vm_compute. reflexivity.
Qed.

End JsonGrammar.

(** ** Precedence levels *)

Section Precedence.

Context {P E : Type}.
Variable same : Parser P E -> Parser P E -> bool.

Lemma indexOf_missing (levels : list (Parser P E)) (level : Parser P E) :
  Forall (fun q => same q level = false) levels ->
  indexOf same levels level = -1.
Proof.
  induction 1 as [| q levels Hq _ IH]; simpl; [reflexivity |].
  rewrite Hq, IH. reflexivity.
Qed.

Lemma indexOf_found (pre post : list (Parser P E)) (l level : Parser P E) :
  Forall (fun q => same q level = false) pre ->
  same l level = true ->
  indexOf same (pre ++ l :: post) level = Z.of_nat (length pre).
Proof.
  intros Hpre Hl. induction Hpre as [| q pre Hq _ IH]; simpl.
  - rewrite Hl. reflexivity.
  - rewrite Hq, IH.
    destruct (Z.of_nat (length pre) <? 0) eqn:Hneg; lia.
Qed.

(** X14. [precedence levels] with no marker is [oneOf] of all the levels.
    With a marker, it is [oneOf] of the levels after the first level that is
    the marker, so that neither that level nor one before it is run, and a
    marker that is the last level gives a parser that returns [undefined];
    with a marker that is none of the levels, it is [oneOf] of all the
    levels again. *)
Theorem precedence_levels (levels : list (Parser P E)) (c : ParseInput) :
  precedence same levels None c = oneOf levels c /\
  (forall pre l post level,
      levels = pre ++ l :: post ->
      Forall (fun q => same q level = false) pre ->
      same l level = true ->
      precedence same levels (Some level) c = oneOf post c /\
      (post = [] -> precedence same levels (Some level) c = Some Undefined)) /\
  (forall level,
      Forall (fun q => same q level = false) levels ->
      precedence same levels (Some level) c = oneOf levels c).
Proof.
  split; [reflexivity | split].
  - intros pre l post level -> Hpre Hl.
    assert (Hrun : precedence same (pre ++ l :: post) (Some level) c = oneOf post c).
    { unfold precedence, slice. rewrite (indexOf_found _ _ _ _ Hpre Hl).
      replace (Z.of_nat (length pre) + 1 <? 0) with false
        by (symmetry; apply Z.ltb_ge; lia).
      replace (Z.to_nat (Z.of_nat (length pre) + 1)) with (length pre + 1)%nat by lia.
      rewrite skipn_app, skipn_all2 by lia.
      replace (length pre + 1 - length pre)%nat with 1%nat by lia.
      reflexivity. }
    split; [exact Hrun |]. intros ->. exact Hrun.
  - intros level Hnone. unfold precedence, slice.
    rewrite (indexOf_missing _ _ Hnone). reflexivity.
Qed.

End Precedence.

Lemma precedence_levels_witness :
  precedence alike_on_plus [exact "+"; exact "*"] (Some (exact "*")) (input "*") =
    Some Undefined.
Proof.
  refine (proj2 (proj1 (proj2 (precedence_levels alike_on_plus
                                 [exact "+"; exact "*"] (input "*")))
                   [exact "+"] (exact "*") [] (exact "*") eq_refl _ eq_refl)
                eq_refl).
  constructor; [reflexivity | constructor].
Defined.

(** ** Running the pieces of a grammar on a known text *)

Lemma take_while_app (cls : ascii -> bool) (w t : string) :
  all_in cls w = true ->
  take_while cls (w ++ t) = (w ++ take_while cls t)%string.
Proof.
  induction w as [| a w IH]; simpl; [reflexivity |].
  intro Hall. apply andb_true_iff in Hall. destruct Hall as [Ha Hw].
  rewrite Ha, IH by exact Hw. reflexivity.
Qed.

Lemma take_while_ext (cls cls' : ascii -> bool) (s : string) :
  (forall a, cls a = cls' a) -> take_while cls s = take_while cls' s.
Proof.
  intro Hext. induction s as [| a s IH]; simpl; [reflexivity |].
  rewrite Hext, IH. reflexivity.
Qed.

Lemma all_in_ext (cls cls' : ascii -> bool) (s : string) :
  (forall a, cls a = cls' a) -> all_in cls s = all_in cls' s.
Proof.
  intro Hext. induction s as [| a s IH]; simpl; [reflexivity |].
  rewrite Hext, IH. reflexivity.
Qed.

Lemma advance_advance (c : ParseInput) (n m : nat) :
  advance (advance c n) m = advance c (n + m).
Proof. unfold advance. cbn [code index]. f_equal. lia. Qed.

Lemma advance_index (c : ParseInput) (n : nat) :
  0 <= index c -> 0 <= index (advance c n).
Proof. unfold advance. cbn [index]. lia. Qed.

Lemma remaining_advance (c : ParseInput) (a b : string) :
  0 <= index c ->
  remaining c = (a ++ b)%string ->
  remaining (advance c (String.length a)) = b.
Proof.
  intros Hpos Hrem. unfold advance. rewrite remaining_after by exact Hpos.
  rewrite Hrem. apply drop_append.
Qed.

Lemma exact_at {E : Type} (str rest : string) (c : ParseInput) :
  remaining c = (str ++ rest)%string ->
  @exact E str c =
    Some (Success (advance c (String.length str))
                  (span c (advance c (String.length str))) str).
Proof.
  intro Hrem. unfold exact. fold (remaining c). rewrite Hrem, startsWith_append.
  reflexivity.
Qed.

Lemma exact_away {E : Type} (str : string) (c : ParseInput) :
  startsWith (remaining c) str = false -> @exact E str c = Some Undefined.
Proof. intro Hno. unfold exact. fold (remaining c). rewrite Hno. reflexivity. Qed.

Lemma take0_filter_char_at {E : Type} (pred : string -> bool) (c : ParseInput)
    (fuel : nat) (w rest : string) :
  0 <= index c ->
  remaining c = (w ++ rest)%string ->
  all_in (fun a => pred (String a "")) w = true ->
  take_while (fun a => pred (String a "")) rest = "" ->
  (String.length w < fuel)%nat ->
  take0 fuel (filter (@char E) pred) c =
    Some (Success (advance c (String.length w))
                  (span c (advance c (String.length w))) w).
Proof.
  intros Hpos Hrem Hall Hrest Hfuel.
  assert (Hrun : take_while (fun a => pred (String a "")) (remaining c) = w).
  { rewrite Hrem, take_while_app, Hrest by exact Hall. apply append_empty_r. }
  unfold take0.
  rewrite (take0_loop_class _ _ (filter_char_takes_class pred) c fuel c "" Hpos);
    rewrite Hrun; [reflexivity | exact Hfuel].
Qed.

Lemma take1_numeric_at {E : Type} (c : ParseInput) (fuel : nat) (w rest : string) :
  0 <= index c ->
  remaining c = (w ++ rest)%string ->
  all_in numericRegex w = true ->
  take_while numericRegex rest = "" ->
  (String.length w < fuel)%nat ->
  take1 fuel (@numericChar E) c =
    if (0 <? String.length w)%nat
    then Some (Success (advance c (String.length w))
                       (span c (advance c (String.length w))) w)
    else Some Undefined.
Proof.
  intros Hpos Hrem Hall Hrest Hfuel. unfold take1, filter at 1, numericChar.
  rewrite (take0_filter_char_at (js_match numericRegex) c fuel w rest);
    try assumption.
  - destruct (0 <? String.length w)%nat; reflexivity.
  - rewrite (all_in_ext _ numericRegex); [exact Hall |].
    intro a. apply js_match_one.
  - rewrite (take_while_ext _ numericRegex); [exact Hrest |].
    intro a. apply js_match_one.
Qed.

(** ** The string and number literals of the JSON grammar *)

Section Literals.

Context {number_t : Type} (Number : string -> number_t).

(** X15. On a text that goes on, from a cursor at 0 or later, with a double
    quote, characters [s] none of which is a double quote, and a double
    quote, [string_] succeeds with the value [s] (the grammar has no escape
    sequences: what is between the quotes is the value as it is), and the
    cursor and the span end after the closing quote.  On a text that ends
    after [s], it returns the error of the missing closing quote, whose
    cursor is the end of the text.  The bound is to exceed the length of
    [s]. *)
Theorem string_literal (fuel : nat) (c : ParseInput) (s rest : string) :
  0 <= index c ->
  all_in (fun a => negb (String a "" =? dquote)%string) s = true ->
  (String.length s < fuel)%nat ->
  (remaining c = (dquote ++ s ++ dquote ++ rest)%string ->
     @string_ number_t fuel c =
       Some (Success {| code := code c; index := index c + str_length s + 2 |}
                     {| src_code := code c; start := index c;
                        end_ := index c + str_length s + 2 |}
                     (JString s))) /\
  (remaining c = (dquote ++ s)%string ->
     @string_ number_t fuel c =
       Some (Error {| code := code c; index := index c + str_length s + 1 |}
                   ("Expected closing quote '" ++ dquote ++ "'")%string)).
Proof.
  intros Hpos Hs Hfuel.
  assert (Hbody : forall tail,
             take_while (fun a => negb (String a "" =? dquote)%string) tail = "" ->
             remaining c = (dquote ++ s ++ tail)%string ->
             take0 fuel (filter (@char string)
                           (fun ch => negb (ch =? dquote)%string)) (advance c 1) =
               Some (Success (advance c (1 + String.length s))
                             (span (advance c 1) (advance c (1 + String.length s))) s)
             /\ remaining (advance c (1 + String.length s)) = tail).
  { intros tail Htail Hrem.
    pose proof (remaining_advance c dquote _ Hpos Hrem) as Hrem1.
    change (String.length dquote) with 1%nat in Hrem1.
    pose proof (advance_index c 1 Hpos) as Hpos1.
    split.
    - rewrite (take0_filter_char_at _ (advance c 1) fuel s tail Hpos1 Hrem1 Hs Htail
                 Hfuel).
      rewrite advance_advance. reflexivity.
    - rewrite <- advance_advance. exact (remaining_advance _ _ _ Hpos1 Hrem1). }
  split; intro Hrem.
  - destruct (Hbody (dquote ++ rest)%string eq_refl Hrem) as [Htake Hrem2].
    unfold string_, map, tuple. cbn [tuple_loop].
    rewrite (exact_at dquote _ c Hrem).
    change (String.length dquote) with 1%nat. rewrite Htake.
    unfold required. rewrite (exact_at dquote rest _ Hrem2).
    change (String.length dquote) with 1%nat. rewrite advance_advance.
    cbn [app nth]. unfold advance, span, str_length. cbn [code index].
    replace (index c + Z.of_nat (1 + String.length s + 1))
      with (index c + Z.of_nat (String.length s) + 2) by lia.
    reflexivity.
  - assert (Hrem' : remaining c = (dquote ++ s ++ "")%string)
      by (rewrite append_empty_r; exact Hrem).
    destruct (Hbody "" eq_refl Hrem') as [Htake Hrem2].
    unfold string_, map, tuple. cbn [tuple_loop].
    rewrite (exact_at dquote _ c Hrem).
    change (String.length dquote) with 1%nat. rewrite Htake.
    unfold required. rewrite (exact_away dquote _) by (rewrite Hrem2; reflexivity).
    unfold advance, str_length.
    replace (index c + Z.of_nat (1 + String.length s))
      with (index c + Z.of_nat (String.length s) + 1) by lia.
    reflexivity.
Qed.

End Literals.

Section NumberLiteral.

Context {number_t : Type} (Number : string -> number_t).

Ltac run_number :=
  unfold number, str, arr, optional, required, nothing, map, tuple;
  cbn [tuple_loop].

(** X16. On a text that goes on, from a cursor at 0 or later, with one or
    more digits [d]: followed by neither a digit nor a point, [number]
    succeeds with [Number d] and the cursor after [d]; followed by a point
    and one or more digits [f], it succeeds with [Number] of [d], the point
    and [f], and the cursor after [f]; followed by a point and no digit, it
    returns the error of the missing decimals, whose cursor is after the
    point.  The bound is to exceed the lengths of [d] and [f]. *)
Theorem number_literal (fuel : nat) (c : ParseInput) (d : string) :
  0 <= index c ->
  all_in numericRegex d = true -> d <> "" ->
  (String.length d < fuel)%nat ->
  (forall rest,
      remaining c = (d ++ rest)%string ->
      take_while numericRegex rest = "" -> startsWith rest "." = false ->
      number Number fuel c =
        Some (Success {| code := code c; index := index c + str_length d |}
                      {| src_code := code c; start := index c;
                         end_ := index c + str_length d |}
                      (JNumber (Number d)))) /\
  (forall f rest,
      remaining c = (d ++ "." ++ f ++ rest)%string ->
      all_in numericRegex f = true -> f <> "" ->
      take_while numericRegex rest = "" ->
      (String.length f < fuel)%nat ->
      number Number fuel c =
        Some (Success
                {| code := code c;
                   index := index c + str_length d + 1 + str_length f |}
                {| src_code := code c; start := index c;
                   end_ := index c + str_length d + 1 + str_length f |}
                (JNumber (Number (d ++ "." ++ f))))) /\
  (forall rest,
      remaining c = (d ++ "." ++ rest)%string ->
      take_while numericRegex rest = "" ->
      number Number fuel c =
        Some (Error {| code := code c; index := index c + str_length d + 1 |}
                    "Expected numbers after decimal point")).
Proof.
  intros Hpos Hd Hne Hfuel.
  assert (Hlen : (0 <? String.length d)%nat = true)
    by (destruct d; [contradiction | reflexivity]).
  pose proof (advance_index c (String.length d) Hpos) as Hpos1.
  split; [| split].
  - intros rest Hrem Hrest Hpoint.
    pose proof (remaining_advance c d rest Hpos Hrem) as Hrem1.
    run_number.
    rewrite (take1_numeric_at c fuel d rest Hpos Hrem Hd Hrest Hfuel), Hlen.
    rewrite (exact_away "." _) by (rewrite Hrem1; exact Hpoint).
    cbn [app nth as_string]. unfold advance, span, js_undefined, Json_HasUndefined.
    reflexivity.
  - intros f rest Hrem Hf Hfne Hrest Hffuel.
    assert (Hflen : (0 <? String.length f)%nat = true)
      by (destruct f; [contradiction | reflexivity]).
    pose proof (remaining_advance c d _ Hpos Hrem) as Hrem1.
    pose proof (remaining_advance _ "." _ Hpos1 Hrem1) as Hrem2.
    pose proof (advance_index _ (String.length ".") Hpos1) as Hpos2.
    run_number.
    rewrite (take1_numeric_at c fuel d _ Hpos Hrem Hd eq_refl Hfuel), Hlen.
    rewrite (exact_at "." _ _ Hrem1).
    rewrite (take1_numeric_at _ fuel f rest Hpos2 Hrem2 Hf Hrest Hffuel), Hflen.
    cbn [app nth as_string elem]. rewrite !advance_advance.
    unfold advance, span, str_length. cbn [code index String.length].
    match goal with
    | |- context [index c + Z.of_nat ?n] =>
        replace (index c + Z.of_nat n)
          with (index c + Z.of_nat (String.length d) + 1 + Z.of_nat (String.length f))
          by lia
    end.
    reflexivity.
  - intros rest Hrem Hrest.
    pose proof (remaining_advance c d _ Hpos Hrem) as Hrem1.
    pose proof (remaining_advance _ "." _ Hpos1 Hrem1) as Hrem2.
    pose proof (advance_index _ (String.length ".") Hpos1) as Hpos2.
    run_number.
    rewrite (take1_numeric_at c fuel d _ Hpos Hrem Hd eq_refl Hfuel), Hlen.
    rewrite (exact_at "." _ _ Hrem1).
    rewrite (take1_numeric_at _ fuel "" rest Hpos2 Hrem2 eq_refl Hrest)
      by (simpl; lia).
    cbn [String.length Nat.ltb Nat.leb]. rewrite !advance_advance.
    unfold advance, str_length. cbn [code index String.length].
    match goal with
    | |- context [index c + Z.of_nat ?n] =>
        replace (index c + Z.of_nat n)
          with (index c + Z.of_nat (String.length d) + 1) by lia
    end.
    reflexivity.
Qed.

End NumberLiteral.

(** ** The loop of [manySep0] *)

Section SeparatedRuns.

Context {P Q E : Type}.
Variable item : Parser P E.
Variable sep : option (Parser Q E).
Variable input : ParseInput.

Lemma manySep0_reaches_length (k : nat) (nextInput : ParseInput) (items : list P) :
  manySep0_reaches item sep input k nextInput items -> length items = k.
Proof.
  induction 1 as [| k nextInput items afterSep input' s v _ IH _ _].
  - reflexivity.
  - rewrite length_app, IH. simpl. lia.
Qed.

(** A success of the loop comes from an iteration that ends it. *)
Lemma manySep0_loop_success (fuel : nat) :
  forall k nextInput items n s out,
    manySep0_reaches item sep input k nextInput items ->
    manySep0_loop fuel item sep input nextInput items = Some (Success n s out) ->
    exists k' nextInput',
      (k' < k + fuel)%nat /\
      manySep0_reaches item sep input k' nextInput' out /\
      manySep0_stops item sep out nextInput' n /\
      s = span input n.
Proof.
  induction fuel as [| fuel IH]; intros k nextInput items n s out Hreach Hrun;
    [discriminate |].
  rewrite manySep0_loop_S in Hrun. cbv zeta in Hrun.
  assert (Hitems : forall afterSep,
             sep_passed sep items nextInput afterSep ->
             match item afterSep with
             | None => None
             | Some Undefined => Some (Success afterSep (span input afterSep) items)
             | Some (Error input' err) => Some (Error input' err)
             | Some (Success input' _ parsed) =>
                 manySep0_loop fuel item sep input input' (items ++ [parsed])
             end = Some (Success n s out) ->
             exists k' nextInput',
               (k' < k + S fuel)%nat /\
               manySep0_reaches item sep input k' nextInput' out /\
               manySep0_stops item sep out nextInput' n /\
               s = span input n).
  { intros afterSep Hpassed Hrest.
    destruct (item afterSep) as [[i s1 v | a e |] |] eqn:Hi; try discriminate.
    - destruct (IH (S k) i (items ++ [v]) n s out) as (k' & nx & Hk & Hr & Hst & Hs).
      + econstructor; eassumption.
      + exact Hrest.
      + exists k', nx. repeat split; try assumption. lia.
    - injection Hrest as <- <- <-. exists k, nextInput.
      repeat split; try assumption; [lia |].
      eapply manySep0_stops_item; eassumption. }
  destruct (0 <? length items)%nat eqn:Hlen.
  - destruct sep as [sp |] eqn:Hsep.
    + assert (Hne : items <> [])
        by (intros ->; simpl in Hlen; discriminate).
      destruct (sp nextInput) as [[i s1 w | a e |] |] eqn:Hs; try discriminate.
      * apply (Hitems i); [| exact Hrun].
        eapply sep_matched; [exact Hne | reflexivity | exact Hs].
      * injection Hrun as <- <- <-. exists k, nextInput.
        repeat split; try assumption; [lia |].
        eapply manySep0_stops_sep; [exact Hne | reflexivity | exact Hs].
    + apply (Hitems nextInput); [| exact Hrun].
      apply sep_skipped. right. reflexivity.
  - apply (Hitems nextInput); [| exact Hrun].
    apply sep_skipped. left.
    destruct items; [reflexivity | simpl in Hlen; discriminate].
Qed.

(** X17. [manySep0] returns a success exactly when its loop, below the
    bound, reaches an iteration that ends it: the separator is tried (an
    item was parsed and a separator is given) and returns [undefined], and
    the cursor is the one before it; or the item returns [undefined], and
    the cursor is the one after the separator, if one was tried.  The values
    are the items parsed so far, as many as there were iterations before,
    and the span runs from the first cursor to that cursor. *)
Theorem manySep0_spec (fuel : nat) :
  (forall n s items,
      manySep0 fuel item sep input = Some (Success n s items) <->
      exists k nextInput,
        (k < fuel)%nat /\
        manySep0_reaches item sep input k nextInput items /\
        manySep0_stops item sep items nextInput n /\
        s = {| src_code := code input; start := index input; end_ := index n |}) /\
  (forall k nextInput items,
      manySep0_reaches item sep input k nextInput items -> length items = k).
Proof.
  split; [| apply manySep0_reaches_length].
  intros n s items. split.
  - intro Hrun.
    destruct (manySep0_loop_success fuel 0 input [] n s items
                (manySep0_start _ _ _) Hrun) as (k & nx & Hk & Hr & Hst & Hs).
    exists k, nx. repeat split; assumption.
  - intros (k & nx & Hk & Hreach & Hstop & ->).
    replace fuel with (k + S (fuel - S k))%nat by lia.
    rewrite (manySep0_reaches_loop _ _ _ _ _ _ Hreach).
    destruct Hstop as [sp Hne Hsep Hsp | afterSep Hpassed Hitem].
    + exact (proj1 (manySep0_loop_sep item sep input _ _ _ _ _ Hne Hsep Hsp) eq_refl).
    + exact (manySep0_loop_item item sep input _ _ _ _ _ Hpassed Hitem).
Qed.

End SeparatedRuns.

(** ** The keywords and the document of the JSON grammar *)

Section Document.

Context {number_t : Type} (Number : string -> number_t).

(** X18. Where the text left at the cursor starts with [null], [nil_]
    succeeds with the value null; where it starts with [true] or with
    [false], [boolean] succeeds with that truth value; the cursor moves over
    the keyword, whatever follows it. *)
Theorem keyword_literals (c : ParseInput) (rest : string) :
  (remaining c = ("null" ++ rest)%string ->
     @nil_ number_t c =
       Some (Success {| code := code c; index := index c + 4 |}
                     {| src_code := code c; start := index c; end_ := index c + 4 |}
                     JNull)) /\
  (remaining c = ("true" ++ rest)%string ->
     @boolean number_t c =
       Some (Success {| code := code c; index := index c + 4 |}
                     {| src_code := code c; start := index c; end_ := index c + 4 |}
                     (JBool true))) /\
  (remaining c = ("false" ++ rest)%string ->
     @boolean number_t c =
       Some (Success {| code := code c; index := index c + 5 |}
                     {| src_code := code c; start := index c; end_ := index c + 5 |}
                     (JBool false))).
Proof.
  split; [| split]; intro Hrem; unfold nil_, boolean, map; cbn [oneOf].
  - rewrite (exact_at "null" rest c Hrem). reflexivity.
  - rewrite (exact_at "true" rest c Hrem). reflexivity.
  - rewrite (exact_away "true" c) by (rewrite Hrem; reflexivity).
    rewrite (exact_at "false" rest c Hrem). reflexivity.
Qed.

Lemma take_while_length (cls : ascii -> bool) (s : string) :
  (String.length (take_while cls s) <= String.length s)%nat.
Proof.
  induction s as [| a s IH]; simpl; [lia |].
  destruct (cls a); simpl; lia.
Qed.

Lemma whitespace_at (c : ParseInput) (fuel : nat) :
  0 <= index c ->
  (String.length (take_while whitespaceRegex (remaining c)) < fuel)%nat ->
  @whitespace (Json number_t) string _ fuel c =
    Some (Success
            (advance c (String.length (take_while whitespaceRegex (remaining c))))
            (span c (advance c (String.length (take_while whitespaceRegex (remaining c)))))
            JUndefined).
Proof.
  intros Hpos Hfuel. unfold whitespace, map, take0, whitespaceChar.
  rewrite (take0_loop_class whitespaceRegex _ (regex_takes_class _) c fuel c ""
             Hpos Hfuel).
  reflexivity.
Qed.

(** X19. [jsonDocument] is [jsonValue] between two runs of whitespace.  From
    a cursor inside the text it skips the whitespace there and runs
    [jsonValue]; an error or an [undefined] of [jsonValue] is its result; on
    a success it skips the whitespace after the value and succeeds with the
    value, a span from the first cursor to the last, and the cursor after
    that whitespace.  What follows in the text is not looked at: a document
    need not end where the text ends.  The bound is to exceed the lengths of
    both runs of whitespace. *)
Theorem jsonDocument_wraps (fuel : nat) (c : ParseInput) :
  valid c ->
  (String.length (take_while whitespaceRegex (remaining c)) < fuel)%nat ->
  (forall c2 s v,
      jsonValue Number fuel
        (advance c (String.length (take_while whitespaceRegex (remaining c))))
        = Some (Success c2 s v) ->
      (String.length (take_while whitespaceRegex (remaining c2)) < fuel)%nat ->
      jsonDocument Number fuel c =
        Some (Success
                {| code := code c2;
                   index := index c2
                            + str_length (take_while whitespaceRegex (remaining c2)) |}
                {| src_code := code c; start := index c;
                   end_ := index c2
                           + str_length (take_while whitespaceRegex (remaining c2)) |}
                v)) /\
  (forall a e,
      jsonValue Number fuel
        (advance c (String.length (take_while whitespaceRegex (remaining c))))
        = Some (Error a e) ->
      jsonDocument Number fuel c = Some (Error a e)) /\
  (jsonValue Number fuel
     (advance c (String.length (take_while whitespaceRegex (remaining c))))
     = Some Undefined ->
   jsonDocument Number fuel c = Some Undefined).
Proof.
  intros Hc Hfuel.
  assert (Hpos : 0 <= index c) by apply Hc.
  pose proof (whitespace_at c fuel Hpos Hfuel) as Hws.
  assert (Hc1 : valid (advance c (String.length
                                    (take_while whitespaceRegex (remaining c))))).
  { pose proof (take_while_length whitespaceRegex (remaining c)) as Hle.
    pose proof (drop_length (Z.to_nat (index c)) (code c)) as Hdrop.
    unfold remaining, js_substring, valid, advance, str_length in *.
    cbn [code index]. lia. }
  split; [| split].
  - intros c2 s v Hvalue Hfuel2.
    destruct (proj1 (jsonValue_tidy Number fuel _ Hc1) _ _ _ Hvalue)
      as (_ & _ & Hc2 & _).
    unfold jsonDocument, map, tuple. cbn [tuple_loop].
    rewrite Hws, Hvalue, (whitespace_at c2 fuel (proj1 Hc2) Hfuel2).
    reflexivity.
  - intros a e Hvalue.
    unfold jsonDocument, map, tuple. cbn [tuple_loop].
    rewrite Hws, Hvalue. reflexivity.
  - intro Hvalue.
    unfold jsonDocument, map, tuple. cbn [tuple_loop].
    rewrite Hws, Hvalue. reflexivity.
Qed.

End Document.

(** ** The further properties at concrete inputs *)

Lemma string_literal_witness :
  @string_ unit 3 (input (dquote ++ "ab" ++ dquote ++ ","))
    = Some (Success {| code := (dquote ++ "ab" ++ dquote ++ ",")%string; index := 4 |}
                    {| src_code := (dquote ++ "ab" ++ dquote ++ ",")%string;
                       start := 0; end_ := 4 |}
                    (JString "ab")).
Proof.
  refine (proj1 (@string_literal unit 3 (input (dquote ++ "ab" ++ dquote ++ ","))
                   "ab" "," _ _ _) _).
  - simpl. lia.
  - reflexivity.
  - simpl. lia.
  - reflexivity.
Defined.

Lemma number_literal_witness :
  number (fun s => s) 2 (input "1.x")
    = Some (Error {| code := "1.x"; index := 2 |} "Expected numbers after decimal point").
Proof.
  refine (proj2 (proj2 (number_literal (fun s => s) 2 (input "1.x") "1" _ _ _ _))
            "x" _ _).
  - simpl. lia.
  - reflexivity.
  - discriminate.
  - simpl. lia.
  - reflexivity.
  - reflexivity.
Defined.

Lemma jsonDocument_wraps_witness :
  jsonDocument (fun s => s) 3 (input " 1 x")
    = Some (Success {| code := " 1 x"; index := 3 |}
                    {| src_code := " 1 x"; start := 0; end_ := 3 |}
                    (JNumber "1")).
Proof.
  refine (proj1 (jsonDocument_wraps (fun s => s) 3 (input " 1 x") _ _)
            {| code := " 1 x"; index := 2 |}
            {| src_code := " 1 x"; start := 1; end_ := 2 |} (JNumber "1") _ _).
  - unfold valid, input, str_length. cbn [code index String.length]. lia.
  - simpl. lia.
  - reflexivity.
  - simpl. lia.
Defined.

(** ** The empty array *)

Lemma advance_0 (c : ParseInput) : advance c 0 = c.
Proof. destruct c as [t i]. unfold advance. cbn [code index]. f_equal. lia. Qed.

Section EmptyArray.

Context {number_t : Type}.
Variable jsonValue : Parser (Json number_t) string.

(** X20. Let the text left at a cursor at 0 or later go on with an opening
    bracket and whitespace [ws], and let the value parser return
    [undefined] after them.  If a closing bracket follows, [array_of]
    succeeds with the empty array and the cursor after the bracket; if
    something else follows, or nothing, it returns the error of the missing
    closing bracket, whose cursor is after the whitespace.  The bound is to
    exceed the length of [ws]. *)
Theorem array_of_empty (fuel : nat) (c : ParseInput) (ws tail : string) :
  0 <= index c ->
  remaining c = ("[" ++ ws ++ tail)%string ->
  all_in whitespaceRegex ws = true ->
  take_while whitespaceRegex tail = "" ->
  (String.length ws < fuel)%nat ->
  jsonValue (advance c (1 + String.length ws)) = Some Undefined ->
  (forall rest, tail = ("]" ++ rest)%string ->
     array_of fuel jsonValue c =
       Some (Success {| code := code c; index := index c + str_length ws + 2 |}
                     {| src_code := code c; start := index c;
                        end_ := index c + str_length ws + 2 |}
                     (JArray []))) /\
  (startsWith tail "]" = false ->
     array_of fuel jsonValue c =
       Some (Error {| code := code c; index := index c + str_length ws + 1 |}
                   "Expected closing bracket ']'")).
Proof.
  intros Hpos Hrem Hws Htail Hfuel Hvalue.
  pose proof (remaining_advance c "[" _ Hpos Hrem) as Hrem1.
  change (String.length "[") with 1%nat in Hrem1.
  pose proof (advance_index c 1 Hpos) as Hpos1.
  pose proof (remaining_advance _ ws _ Hpos1 Hrem1) as Hrem2.
  rewrite advance_advance in Hrem2.
  pose proof (advance_index c (1 + String.length ws) Hpos) as Hpos2.
  assert (Hrun1 : take_while whitespaceRegex (remaining (advance c 1)) = ws).
  { rewrite Hrem1, take_while_app, Htail by exact Hws. apply append_empty_r. }
  assert (Hskip1 : @whitespace (Json number_t) string _ fuel (advance c 1) =
                     Some (Success (advance c (1 + String.length ws))
                                   (span (advance c 1) (advance c (1 + String.length ws)))
                                   JUndefined)).
  { rewrite whitespace_at by (rewrite ?Hrun1; assumption).
    rewrite Hrun1, advance_advance. reflexivity. }
  assert (Hskip2 : @whitespace (Json number_t) string _ fuel
                     (advance c (1 + String.length ws)) =
                     Some (Success (advance c (1 + String.length ws))
                                   (span (advance c (1 + String.length ws))
                                         (advance c (1 + String.length ws)))
                                   JUndefined)).
  { rewrite whitespace_at by (rewrite ?Hrem2, ?Htail; simpl; assumption || lia).
    rewrite Hrem2, Htail. cbn [String.length]. rewrite advance_0. reflexivity. }
  assert (Hitems : manySep0 fuel jsonValue
                     (Some (@commaWithWhitespace number_t fuel))
                     (advance c (1 + String.length ws)) =
                     Some (Success (advance c (1 + String.length ws))
                                   (span (advance c (1 + String.length ws))
                                         (advance c (1 + String.length ws))) [])).
  { destruct fuel as [| fuel']; [lia |]. unfold manySep0.
    rewrite (manySep0_loop_item jsonValue _ _ fuel' _
               (advance c (1 + String.length ws)) [] Undefined);
      [reflexivity | | exact Hvalue].
    apply sep_skipped. left. reflexivity. }
  assert (Hopen : @exact string "[" c =
                    Some (Success (advance c 1) (span c (advance c 1)) "["))
    by exact (exact_at "[" _ c Hrem).
  split.
  - intros rest ->.
    unfold array_of, map at 1, tuple. cbn [tuple_loop].
    unfold str at 1, map at 1. rewrite Hopen, Hskip1.
    unfold arr, map at 1. rewrite Hitems, Hskip2.
    unfold str, required, map. rewrite (exact_at "]" rest _ Hrem2).
    rewrite advance_advance. cbn [app nth].
    unfold advance, span, str_length. cbn [code index String.length].
    match goal with
    | |- context [index c + Z.of_nat ?n] =>
        replace (index c + Z.of_nat n)
          with (index c + Z.of_nat (String.length ws) + 2) by lia
    end.
    reflexivity.
  - intro Hno.
    unfold array_of, map at 1, tuple. cbn [tuple_loop].
    unfold str at 1, map at 1. rewrite Hopen, Hskip1.
    unfold arr, map at 1. rewrite Hitems, Hskip2.
    unfold str, required, map.
    rewrite (exact_away "]" _) by (rewrite Hrem2; exact Hno).
    unfold advance, str_length.
    match goal with
    | |- context [index c + Z.of_nat ?n] =>
        replace (index c + Z.of_nat n)
          with (index c + Z.of_nat (String.length ws) + 1) by lia
    end.
    reflexivity.
Qed.

End EmptyArray.

Lemma array_of_empty_witness :
  array (fun s => s) 2 (input "[ ") =
    Some (Error {| code := "[ "; index := 2 |} "Expected closing bracket ']'").
Proof.
  refine (proj2 (@array_of_empty string (jsonValue (fun s => s) 2) 2 (input "[ ")
                   " " "" _ _ _ _ _ _) _).
  - simpl. lia.
  - reflexivity.
  - reflexivity.
  - reflexivity.
  - simpl. lia.
  - reflexivity.
  - reflexivity.
Defined.

(** ** The empty object *)

Section EmptyObject.

Context {number_t : Type}.
Variable jsonValue : Parser (Json number_t) string.

(** X21. Let the text left at a cursor at 0 or later go on with an opening
    curly brace and whitespace [ws], and then with no double quote.  If a
    closing curly brace follows, [object_of] succeeds with the object that
    has no entry and the cursor after the brace; if something else follows,
    or nothing, it returns the error of the missing closing curly brace,
    whose cursor is after the whitespace.  The value parser is not run.  The
    bound is to exceed the length of [ws]. *)
Theorem object_of_empty (fuel : nat) (c : ParseInput) (ws tail : string) :
  0 <= index c ->
  remaining c = ("{" ++ ws ++ tail)%string ->
  all_in whitespaceRegex ws = true ->
  take_while whitespaceRegex tail = "" ->
  startsWith tail dquote = false ->
  (String.length ws < fuel)%nat ->
  (forall rest, tail = ("}" ++ rest)%string ->
     object_of fuel jsonValue c =
       Some (Success {| code := code c; index := index c + str_length ws + 2 |}
                     {| src_code := code c; start := index c;
                        end_ := index c + str_length ws + 2 |}
                     (JObject []))) /\
  (startsWith tail "}" = false ->
     object_of fuel jsonValue c =
       Some (Error {| code := code c; index := index c + str_length ws + 1 |}
                   "Expected closing curly brace '}'")).
Proof.
  intros Hpos Hrem Hws Htail Hquote Hfuel.
  pose proof (remaining_advance c "{" _ Hpos Hrem) as Hrem1.
  change (String.length "{") with 1%nat in Hrem1.
  pose proof (advance_index c 1 Hpos) as Hpos1.
  pose proof (remaining_advance _ ws _ Hpos1 Hrem1) as Hrem2.
  rewrite advance_advance in Hrem2.
  pose proof (advance_index c (1 + String.length ws) Hpos) as Hpos2.
  assert (Hrun1 : take_while whitespaceRegex (remaining (advance c 1)) = ws).
  { rewrite Hrem1, take_while_app, Htail by exact Hws. apply append_empty_r. }
  assert (Hskip1 : @whitespace (Json number_t) string _ fuel (advance c 1) =
                     Some (Success (advance c (1 + String.length ws))
                                   (span (advance c 1) (advance c (1 + String.length ws)))
                                   JUndefined)).
  { rewrite whitespace_at by (rewrite ?Hrun1; assumption).
    rewrite Hrun1, advance_advance. reflexivity. }
  assert (Hskip2 : @whitespace (Json number_t) string _ fuel
                     (advance c (1 + String.length ws)) =
                     Some (Success (advance c (1 + String.length ws))
                                   (span (advance c (1 + String.length ws))
                                         (advance c (1 + String.length ws)))
                                   JUndefined)).
  { rewrite whitespace_at by (rewrite ?Hrem2, ?Htail; simpl; assumption || lia).
    rewrite Hrem2, Htail. cbn [String.length]. rewrite advance_0. reflexivity. }
  assert (Hopen : @exact string "{" c =
                    Some (Success (advance c 1) (span c (advance c 1)) "{"))
    by exact (exact_at "{" _ c Hrem).
  assert (Hstart : object_of fuel jsonValue c =
            match
              required (@exact string "}") (fun _ => "Expected closing curly brace '}'")
                (advance c (1 + String.length ws))
            with
            | Some (Success n _ _) => Some (Success n (span c n) (JObject []))
            | Some (Error a e) => Some (Error a e)
            | Some Undefined => Some Undefined
            | None => None
            end).
  { unfold object_of, map at 1, tuple. cbn [tuple_loop].
    unfold str at 1, map at 1. rewrite Hopen, Hskip1.
    unfold arr, map at 1.
    match goal with
    | |- context [manySep0 ?f ?it ?sp ?x] =>
        assert (Hitems : manySep0 f it sp x = Some (Success x (span x x) []))
    end.
    { destruct fuel as [| fuel']; [lia |]. unfold manySep0.
      rewrite manySep0_loop_S. cbv zeta. cbn [length Nat.ltb Nat.leb].
      unfold map at 1, tuple. cbn [tuple_loop].
      unfold string_, map at 1, tuple. cbn [tuple_loop].
      rewrite (exact_away dquote _) by (rewrite Hrem2; exact Hquote).
      reflexivity. }
    rewrite Hitems, Hskip2. unfold str, map.
    destruct (required (exact "}") (fun _ : ParseInput => "Expected closing curly brace '}'")
                (advance c (1 + String.length ws))) as [[n s v | a e |] |];
      reflexivity. }
  rewrite Hstart. unfold required. split.
  - intros rest ->.
    rewrite (exact_at "}" rest _ Hrem2), advance_advance.
    unfold advance, span, str_length. cbn [code index String.length].
    match goal with
    | |- context [index c + Z.of_nat ?n] =>
        replace (index c + Z.of_nat n)
          with (index c + Z.of_nat (String.length ws) + 2) by lia
    end.
    reflexivity.
  - intro Hno.
    rewrite (exact_away "}" _) by (rewrite Hrem2; exact Hno).
    unfold advance, str_length.
    match goal with
    | |- context [index c + Z.of_nat ?n] =>
        replace (index c + Z.of_nat n)
          with (index c + Z.of_nat (String.length ws) + 1) by lia
    end.
    reflexivity.
Qed.

End EmptyObject.

Lemma object_of_empty_witness :
  object (fun s => s) 2 (input "{ }") =
    Some (Success {| code := "{ }"; index := 3 |}
                  {| src_code := "{ }"; start := 0; end_ := 3 |} (JObject [])).
Proof.
  refine (proj1 (@object_of_empty string (jsonValue (fun s => s) 2) 2 (input "{ }")
                   " " "}" _ _ _ _ _ _) "" _).
  - simpl. lia.
  - reflexivity.
  - reflexivity.
  - reflexivity.
  - reflexivity.
  - simpl. lia.
  - reflexivity.
Defined.

Lemma keyword_literals_witness :
  @boolean unit (input "false,") =
    Some (Success {| code := "false,"; index := 5 |}
                  {| src_code := "false,"; start := 0; end_ := 5 |} (JBool false)).
Proof.
  apply (proj2 (proj2 (@keyword_literals unit (input "false,") ","))).
  reflexivity.
Defined.

Lemma manySep0_spec_witness :
  manySep0 3 (@exact string "a") (Some (@exact string ",")) (input "a,a") =
    Some (Success {| code := "a,a"; index := 3 |}
                  {| src_code := "a,a"; start := 0; end_ := 3 |} ["a"; "a"]).
Proof.
  apply (proj2 (proj1 (manySep0_spec (@exact string "a") (Some (@exact string ","))
                         (input "a,a") 3) _ _ _)).
  exists 2%nat, {| code := "a,a"; index := 3 |}.
  split; [lia | split; [| split; [| reflexivity]]].
  - apply (manySep0_again (exact "a") (Some (exact ",")) (input "a,a") 1
             {| code := "a,a"; index := 1 |} ["a"] {| code := "a,a"; index := 2 |}
             {| code := "a,a"; index := 3 |}
             {| src_code := "a,a"; start := 2; end_ := 3 |} "a").
    + apply (manySep0_again (exact "a") (Some (exact ",")) (input "a,a") 0
               (input "a,a") [] (input "a,a") {| code := "a,a"; index := 1 |}
               {| src_code := "a,a"; start := 0; end_ := 1 |} "a").
      * apply manySep0_start.
      * apply sep_skipped. left. reflexivity.
      * reflexivity.
    + apply (sep_matched (Some (exact ",")) ["a"]
               {| code := "a,a"; index := 1 |} (exact ",")
               {| code := "a,a"; index := 2 |}
               {| src_code := "a,a"; start := 1; end_ := 2 |} ",").
      * discriminate.
      * reflexivity.
      * reflexivity.
    + reflexivity.
  - apply (manySep0_stops_sep (exact "a") (Some (exact ",")) ["a"; "a"]
             {| code := "a,a"; index := 3 |} (exact ",")).
    + discriminate.
    + reflexivity.
    + reflexivity.
Defined.

Lemma json_results_witness :
  jsonDocument (fun s => s) 2 (input "") = Some Undefined.
Proof.
  apply (proj2 (proj2 (proj2 (proj2 (json_results (fun s => s) 2 ""))))).
  apply le_n.
Defined.
